(** * password-wallet-cli: the vault engine (src/vault.py)

    A shallow embedding of [PasswordVault], of the password generator and
    of the part of the CLI that validates input and authenticates, with the
    properties of the vault's specification proved or refuted over it.

    Layout:
    - [Bytes], [SHA256], [KDF]: PBKDF2-HMAC-SHA256 as the standards define
      it, the key derivation [_derive_key] asks of the [cryptography]
      package, and url-safe base64;
    - [Py]: the Python values, the world (files, clock, entropy) and the
      monad in which the methods run;
    - [Vault]: the methods of [PasswordVault], one definition per method;
    - [Cli]: [get_user_input] of src/password_wallet.py;
    - [Toy]: a small runtime (cipher, JSON codec, key derivation) that
      satisfies the laws the theorems assume of the libraries, used to run
      the model on inputs, and [Rfc], the same with the key derivation of
      the standards;
    - [Props], the theorems of the specification, and [Scenario], its
      example run;
    - [More]: further properties of the vault's methods;
    - [Generator], [GeneratorProps]: src/password_generator.py;
    - [Wallet]: [authenticate] of src/password_wallet.py;
    - [MoreScenario]: the further properties at the example. *)

From Stdlib Require Import ZArith NArith Lia List String Ascii Sorted.
From Stdlib Require Import Init.Byte Strings.Byte.
From stdpp Require Import gmap strings list fin_maps.

Local Open Scope Z_scope.

(** ** Bytes *)

Module Bytes.

Abbreviation bytes := (list byte).

#[export] Instance byte_eq_dec : EqDecision byte := Byte.byte_eq_dec.

Definition Z_of_byte (b : byte) : Z := Z.of_N (Byte.to_N b).

Definition byte_of_Z (z : Z) : byte :=
  match Byte.of_N (Z.to_N (z mod 256)) with
  | Some b => b
  | None => x00
  end.

(** [n] bytes, most significant first, of the low [8*n] bits of [z]. *)
Fixpoint be_bytes (n : nat) (z : Z) : bytes :=
  match n with
  | O => []
  | S n' => byte_of_Z (Z.shiftr z (8 * Z.of_nat n')) :: be_bytes n' z
  end.

Definition be_value (bs : bytes) : Z :=
  fold_left (fun acc b => acc * 256 + Z_of_byte b) bs 0.

Definition xor_byte (a b : byte) : byte :=
  byte_of_Z (Z.lxor (Z_of_byte a) (Z_of_byte b)).

Fixpoint xor_bytes (xs ys : bytes) : bytes :=
  match xs, ys with
  | x :: xs', y :: ys' => xor_byte x y :: xor_bytes xs' ys'
  | _, _ => []
  end.

(** [str.encode()]: a [string] stands for the UTF-8 text of a Python [str]. *)
Definition str_encode (s : string) : bytes := list_byte_of_string s.

Fixpoint chunks_fuel {A} (fuel n : nat) (l : list A) : list (list A) :=
  match fuel with
  | O => []
  | S fuel' =>
      match l with
      | [] => []
      | _ => firstn n l :: chunks_fuel fuel' n (skipn n l)
      end
  end.

Definition chunks {A} (n : nat) (l : list A) : list (list A) :=
  chunks_fuel (length l) n l.

End Bytes.
Import Bytes.

(** ** SHA-256 (FIPS 180-4), on 32-bit words kept in [Z] *)

Module SHA256.

Definition w32 (x : Z) : Z := x mod 2 ^ 32.
Definition add32 (x y : Z) : Z := w32 (x + y).
Definition rotr (n x : Z) : Z := Z.lor (Z.shiftr x n) (w32 (Z.shiftl x (32 - n))).
Definition not32 (x : Z) : Z := 2 ^ 32 - 1 - x.

Definition Ch (x y z : Z) : Z := Z.lxor (Z.land x y) (Z.land (not32 x) z).
Definition Maj (x y z : Z) : Z :=
  Z.lxor (Z.lxor (Z.land x y) (Z.land x z)) (Z.land y z).
Definition bsig0 (x : Z) : Z := Z.lxor (Z.lxor (rotr 2 x) (rotr 13 x)) (rotr 22 x).
Definition bsig1 (x : Z) : Z := Z.lxor (Z.lxor (rotr 6 x) (rotr 11 x)) (rotr 25 x).
Definition ssig0 (x : Z) : Z := Z.lxor (Z.lxor (rotr 7 x) (rotr 18 x)) (Z.shiftr x 3).
Definition ssig1 (x : Z) : Z := Z.lxor (Z.lxor (rotr 17 x) (rotr 19 x)) (Z.shiftr x 10).

(** The round constants are the first 32 fractional bits of the cube roots
    of the first 64 primes, the initial state those of the square roots of
    the first 8; both are computed here rather than tabulated. *)
Definition is_prime (n : nat) : bool :=
  (2 <=? n)%nat && forallb (fun d => negb (n mod d =? 0)%nat) (seq 2 (n - 2)).

Definition primes64 : list Z :=
  Eval vm_compute in map Z.of_nat (filter is_prime (seq 2 310)).

Definition icbrt (n : Z) : Z :=
  fold_left (fun r k => let c := r + 2 ^ Z.of_nat k in
                        if c * c * c <=? n then c else r)
            (rev (seq 0 40)) 0.

Definition K : list Z :=
  Eval vm_compute in map (fun p => w32 (icbrt (p * 2 ^ 96))) primes64.

Definition H0 : list Z :=
  Eval vm_compute in map (fun p => w32 (Z.sqrt (p * 2 ^ 64))) (firstn 8 primes64).

Definition pad (msg : bytes) : bytes :=
  let l := Z.of_nat (length msg) in
  msg ++ x80 :: repeat x00 (Z.to_nat ((55 - l) mod 64)) ++ be_bytes 8 (8 * l).

Definition block_words (block : bytes) : list Z := map be_value (chunks 4 block).

Definition schedule (block : bytes) : list Z :=
  fold_left (fun W t =>
               W ++ [add32 (add32 (ssig1 (nth (t - 2) W 0)) (nth (t - 7) W 0))
                           (add32 (ssig0 (nth (t - 15) W 0)) (nth (t - 16) W 0))])
            (seq 16 48) (block_words block).

Definition round (s : list Z) (kw : Z * Z) : list Z :=
  match s with
  | [a; b; c; d; e; f; g; h] =>
      let t1 := add32 (add32 (add32 h (bsig1 e)) (add32 (Ch e f g) (fst kw))) (snd kw) in
      let t2 := add32 (bsig0 a) (Maj a b c) in
      [add32 t1 t2; a; b; c; add32 d t1; e; f; g]
  | _ => s
  end.

Definition compress (H : list Z) (block : bytes) : list Z :=
  let s := fold_left round (combine K (schedule block)) H in
  map (fun p => add32 (fst p) (snd p)) (combine H s).

Definition sha256 (msg : bytes) : bytes :=
  flat_map (be_bytes 4) (fold_left compress (chunks 64 (pad msg)) H0).

End SHA256.

(** ** HMAC (RFC 2104), PBKDF2 (RFC 8018) and url-safe base64 (RFC 4648) *)

Module KDF.

Definition block_size : nat := 64.

(** RFC 2104, section 2: a key longer than the block is hashed first; the
    result is padded with zero bytes to the block size. *)
Definition hmac_key_block (key : bytes) : bytes :=
  let k := if (block_size <? length key)%nat then SHA256.sha256 key else key in
  k ++ repeat x00 (block_size - length k).

Definition hmac_sha256 (key msg : bytes) : bytes :=
  let k0 := hmac_key_block key in
  let ipad := map (xor_byte x36) k0 in
  let opad := map (xor_byte x5c) k0 in
  SHA256.sha256 (opad ++ SHA256.sha256 (ipad ++ msg)).

(** The block [T_i = U_1 xor ... xor U_c] of PBKDF2. *)
Definition pbkdf2_block (password salt : bytes) (c : N) (i : Z) : bytes :=
  let u1 := hmac_sha256 password (salt ++ be_bytes 4 i) in
  snd (N.iter (c - 1)
              (fun ut => let u := hmac_sha256 password (fst ut) in
                         (u, xor_bytes (snd ut) u))
              (u1, u1)).

Definition pbkdf2_hmac_sha256 (password salt : bytes) (iterations : N)
    (length : nat) : bytes :=
  firstn length
    (flat_map (fun i => pbkdf2_block password salt iterations (Z.of_nat i))
              (seq 1 ((length + 31) / 32))).

Definition b64url_alphabet : string :=
  "ABCDEFGHIJKLMNOPQRSTUVWXYZabcdefghijklmnopqrstuvwxyz0123456789-_".

Definition b64url_char (i : Z) : byte :=
  match String.get (Z.to_nat i) b64url_alphabet with
  | Some c => byte_of_ascii c
  | None => x3d
  end.

(** One group of at most three bytes becomes four characters, padded with
    [=]. *)
Definition b64url_group (g : bytes) : bytes :=
  let n := be_value (g ++ repeat x00 (3 - length g)) in
  let cs := map (fun k => b64url_char (Z.land (Z.shiftr n (6 * k)) 63)) [3; 2; 1; 0] in
  firstn (S (length g)) cs ++ repeat x3d (3 - length g).

Definition urlsafe_b64encode (data : bytes) : bytes :=
  flat_map b64url_group (chunks 3 data).

End KDF.

Module KDFTests.
Import SHA256 KDF.

(** The model against the published test vectors: FIPS 180-4 ("abc"),
    RFC 4231 (test case 2) and the PBKDF2-HMAC-SHA256 vectors for
    ("password", "salt") with one and two iterations. *)

Example sha256_abc :
  be_value (sha256 (str_encode "abc"))
  = 0xba7816bf8f01cfea414140de5dae2223b00361a396177a9cb410ff61f20015ad.
Proof. vm_compute. reflexivity. Qed.

Example hmac_rfc4231_2 :
  be_value (hmac_sha256 (str_encode "Jefe")
                        (str_encode "what do ya want for nothing?"))
  = 0x5bdcc146bf60754e6a042426089575c75a003f089d2739839dec58b964ec3843.
Proof. vm_compute. reflexivity. Qed.

Example pbkdf2_one_iteration :
  be_value (pbkdf2_hmac_sha256 (str_encode "password") (str_encode "salt") 1 32)
  = 0x120fb6cffcf8b32c43e7225256c4f837a86548c92ccc35480805987cb70be17b.
Proof. vm_compute. reflexivity. Qed.

Example pbkdf2_two_iterations :
  be_value (pbkdf2_hmac_sha256 (str_encode "password") (str_encode "salt") 2 32)
  = 0xae4d0c95af6b46d32d0adff928f06dd02a303f8ef3c251dfd6e2d85a95474c43.
Proof. vm_compute. reflexivity. Qed.

Example b64url_padding :
  map (fun s => string_of_list_byte (urlsafe_b64encode s))
      [str_encode "foobar"; str_encode "fooba"; str_encode "foob"; [xfb; xff; xbe]]
  = ["Zm9vYmFy"; "Zm9vYmE="; "Zm9vYg=="; "-_--"]%string.
Proof. vm_compute. reflexivity. Qed.

End KDFTests.

(** ** Python values, the world and the monad of the methods *)

Module Py.

(** The values stored in the dictionaries of the vault: [str] and [int]. *)
Inductive value : Type :=
  | VStr (s : string)
  | VInt (n : Z).

Abbreviation dict := (gmap string value).

Inductive exn : Type :=
  | KeyError | AttributeError | OSError | InvalidToken | ValueError | EOFError.

(** What a call comes to: a value, an exception, or the process killed
    before the call ended. *)
Inductive result (A : Type) : Type :=
  | Ok (a : A)
  | Raise (e : exn)
  | Killed.
Arguments Ok {A} a.
Arguments Raise {A} e.
Arguments Killed {A}.

(** [cryptography.fernet.Fernet]: the object holds the key it was built
    from. [_derive_key] hands it the url-safe base64 encoding of the 32
    bytes derived, which is what the constructor accepts. *)
Record Fernet : Type := MkFernet { fernet_key : bytes }.

(** What lies outside the process.
    - [files]: the content of every existing file, by path;
    - [denied]: the paths on which [open] raises [OSError];
    - [clock]: the time, in microseconds since the epoch;
    - [entropy], [drawn]: the bytes [os.urandom] hands out, and how many it
      has handed out so far;
    - [fuse]: [Some (n, f)] when the [n+1]-th change the process makes to
      the file system meets the fault [f], [None] when every change goes
      through;
    - [stdin]: the lines the user is still to type. *)
(** A fault strikes a call that changes the file system: the process is
    killed in it, or the call raises [OSError] (disk full, quota, I/O
    error). A write struck has put the first [written] bytes of its data in
    the file; [open] struck has changed nothing. *)
Inductive fault : Type :=
  | Kill (written : nat)
  | Fail (written : nat).

Record World : Type := MkWorld {
  files : gmap string bytes;
  denied : gset string;
  clock : Z;
  entropy : nat -> byte;
  drawn : nat;
  fuse : option (nat * fault);
  stdin : list string;
}.

Definition set_files (fs : gmap string bytes) (w : World) : World :=
  MkWorld fs (denied w) (clock w) (entropy w) (drawn w) (fuse w) (stdin w).
Definition set_drawn (n : nat) (w : World) : World :=
  MkWorld (files w) (denied w) (clock w) (entropy w) n (fuse w) (stdin w).
Definition set_fuse (f : option (nat * fault)) (w : World) : World :=
  MkWorld (files w) (denied w) (clock w) (entropy w) (drawn w) f (stdin w).
Definition set_stdin (lines : list string) (w : World) : World :=
  MkWorld (files w) (denied w) (clock w) (entropy w) (drawn w) (fuse w) lines.

(** [self]: the fields of a [PasswordVault]. *)
Record PasswordVault : Type := MkVault {
  vault_path : string;
  salt_path : string;
  entries : list dict;
  fernet : option Fernet;
}.

Definition with_entries (es : list dict) (v : PasswordVault) : PasswordVault :=
  MkVault (vault_path v) (salt_path v) es (fernet v).
Definition with_fernet (f : option Fernet) (v : PasswordVault) : PasswordVault :=
  MkVault (vault_path v) (salt_path v) (entries v) f.

Definition State : Type := PasswordVault * World.

Definition M (A : Type) : Type := State -> result A * State.

Definition ret {A} (a : A) : M A := fun s => (Ok a, s).

Definition bind {A B} (m : M A) (k : A -> M B) : M B :=
  fun s => match m s with
           | (Ok a, s') => k a s'
           | (Raise e, s') => (Raise e, s')
           | (Killed, s') => (Killed, s')
           end.

Definition raise {A} (e : exn) : M A := fun s => (Raise e, s).

(** [try: m  except Exception: h]. A killed process runs no handler. *)
Definition try_except {A} (m : M A) (h : exn -> M A) : M A :=
  fun s => match m s with
           | (Raise e, s') => h e s'
           | r => r
           end.

Definition lift {A} (r : result A) : M A := fun s => (r, s).

Definition get_self : M PasswordVault := fun s => (Ok (fst s), s).
Definition get_world : M World := fun s => (Ok (snd s), s).
Definition set_self (f : PasswordVault -> PasswordVault) : M unit :=
  fun s => (Ok tt, (f (fst s), snd s)).
Definition set_world (f : World -> World) : M unit :=
  fun s => (Ok tt, (fst s, f (snd s))).

Arguments set_files fs w /.
Arguments set_drawn n w /.
Arguments set_fuse f w /.
Arguments set_stdin lines w /.
Arguments with_entries es v /.
Arguments with_fernet f v /.
Arguments ret {A} a s /.
Arguments bind {A B} m k s /.
Arguments raise {A} e s /.
Arguments try_except {A} m h s /.
Arguments lift {A} r s /.
Arguments get_self s /.
Arguments get_world s /.
Arguments set_self f s /.
Arguments set_world f s /.

End Py.
Import Py.

Declare Scope py_scope.
Delimit Scope py_scope with py.
Notation "'let!' x ':=' m 'in' k" := (bind m (fun x => k))
  (at level 10, x name, m at level 100, k at level 200) : py_scope.
Notation "'do!' m 'in' k" := (bind m (fun _ => k))
  (at level 10, m at level 100, k at level 200) : py_scope.
Local Open Scope py_scope.

(** ** The libraries the vault calls

    [str.lower], [str.strip], [datetime.isoformat], [json], [bytes.decode],
    the key derivation and the Fernet cipher are the Python runtime's and
    the [cryptography] package's. The model takes them as an interface; the
    theorems hold for every implementation of it that satisfies the laws
    they name. *)

Class Runtime : Type := {
  (** [PBKDF2HMAC(algorithm=SHA256(), length, salt, iterations).derive(password)],
      as [pbkdf2_derive password salt iterations length]. *)
  pbkdf2_derive : bytes -> bytes -> N -> nat -> bytes;
  str_lower : string -> string;
  str_strip : string -> string;
  isoformat : Z -> string;
  (** [json.dumps(entries, indent=2)] and [json.loads]; [None] stands for
      the decoder's exception. *)
  json_dumps : list dict -> string;
  json_loads : string -> option (list dict);
  (** [bytes.decode()]; [None] stands for [UnicodeDecodeError]. *)
  bytes_decode : bytes -> option string;
  (** [Fernet.encrypt] at a given time (in seconds) and initialisation
      vector, and [Fernet.decrypt]; [None] stands for [InvalidToken]. *)
  fernet_encrypt : Fernet -> Z -> bytes -> bytes -> bytes;
  fernet_decrypt : Fernet -> bytes -> option bytes;
}.

(** Decoding undoes encoding. *)
Class RuntimeLaws (R : Runtime) : Prop := {
  json_loads_dumps : forall es, json_loads (json_dumps es) = Some es;
  bytes_decode_encode : forall s, bytes_decode (str_encode s) = Some s;
  fernet_decrypt_encrypt : forall f t iv data,
    fernet_decrypt f (fernet_encrypt f t iv data) = Some data;
}.

(** The cipher is authenticated: a token made under one key is rejected
    under every other key. *)
Class FernetAuthentic (R : Runtime) : Prop :=
  fernet_rejects : forall f f' t iv data,
    f <> f' -> fernet_decrypt f' (fernet_encrypt f t iv data) = None.

(** The key derivation is the one of RFC 8018 over HMAC-SHA256. *)
Class Rfc8018 (R : Runtime) : Prop :=
  pbkdf2_derive_rfc : forall password salt iterations length,
    pbkdf2_derive password salt iterations length
    = KDF.pbkdf2_hmac_sha256 password salt iterations length.

(** ** The operating system *)

Module OS.

(** A change to the file system is about to be made: the point at which
    the fault of a burnt fuse strikes. A call that fails has met its fault,
    and the changes after it go through. *)
Definition tick : M unit :=
  fun s => match fuse (snd s) with
           | Some (O, Kill _) => (Killed, s)
           | Some (O, Fail _) => (Raise OSError, (fst s, set_fuse None (snd s)))
           | Some (S n, f) => (Ok tt, (fst s, set_fuse (Some (n, f)) (snd s)))
           | None => (Ok tt, s)
           end.

(** [os.path.exists(path)] *)
Definition path_exists (path : string) : M bool :=
  fun s => (Ok (match files (snd s) !! path with Some _ => true | None => false end), s).

(** [with open(path, 'rb') as f: return f.read()] *)
Definition read_file (path : string) : M bytes :=
  fun s => if decide (path ∈ denied (snd s)) then (Raise OSError, s)
           else match files (snd s) !! path with
                | Some data => (Ok data, s)
                | None => (Raise OSError, s)
                end.

(** [open(path, 'wb')]: the file is created, or cut to length zero. *)
Definition open_wb (path : string) : M unit :=
  let! w := get_world in
  if decide (path ∈ denied w) then raise OSError
  else do! tick in set_world (fun w => set_files (<[path := []]> (files w)) w).

(** [f.write(data)] on the file just opened, and its close. When the
    process is killed in them, or the write or the close fails, the file is
    left with the part of the data that was written. *)
Definition write (path : string) (data : bytes) : M unit :=
  let! w := get_world in
  match fuse w with
  | Some (O, Kill written) =>
      do! set_world (fun w => set_files (<[path := take written data]> (files w)) w) in
      lift Killed
  | Some (O, Fail written) =>
      do! set_world (fun w => set_fuse None
                     (set_files (<[path := take written data]> (files w)) w)) in
      raise OSError
  | _ =>
      do! tick in set_world (fun w => set_files (<[path := data]> (files w)) w)
  end.

(** [with open(path, 'wb') as f: f.write(data)] *)
Definition write_file (path : string) (data : bytes) : M unit :=
  do! open_wb path in write path data.

(** [input(prompt)]: the next line typed, or [EOFError]. *)
Definition input : M string :=
  let! w := get_world in
  match stdin w with
  | line :: rest => do! set_world (set_stdin rest) in ret line
  | [] => raise EOFError
  end.

(** [os.urandom(n)] *)
Definition urandom (n : nat) : M bytes :=
  let! w := get_world in
  do! set_world (set_drawn (drawn w + n)) in
  ret (map (entropy w) (seq (drawn w) n)).

(** [int(time.time())] *)
Definition time_time : M Z :=
  let! w := get_world in ret (clock w / 1000000).

(** [datetime.now().isoformat()] *)
Definition now_isoformat `{Runtime} : M string :=
  let! w := get_world in ret (isoformat (clock w)).

Arguments tick s /.
Arguments path_exists path s /.
Arguments read_file path s /.
Arguments open_wb path s /.
Arguments write path data s /.
Arguments write_file path data s /.
Arguments urandom n s /.
Arguments input s /.
Arguments time_time s /.
Arguments now_isoformat {_} s /.

End OS.

(** ** [class PasswordVault] *)

Module Vault.
Section Methods.
Context `{RT : Runtime}.

(** Directories are not modelled: [os.makedirs] of the vault's directory
    is left out. *)
Definition __init__ (vault_path : string) : PasswordVault :=
  MkVault vault_path "data/salt.key" [] None.

Definition _derive_key (password : string) (salt : bytes) : bytes :=
  KDF.urlsafe_b64encode (pbkdf2_derive (str_encode password) salt 100000 32).

Definition _get_or_create_salt : M bytes :=
  let! self := get_self in
  let! found := OS.path_exists (salt_path self) in
  if found then OS.read_file (salt_path self)
  else
    let! salt := OS.urandom 16 in
    do! OS.write_file (salt_path self) salt in
    ret salt.

(** [self.fernet.encrypt(data)]: the token is stamped with the time and a
    fresh initialisation vector. *)
Definition encrypt (f : Fernet) (data : bytes) : M bytes :=
  let! t := OS.time_time in
  let! iv := OS.urandom 16 in
  ret (fernet_encrypt f t iv data).

Definition decrypt (f : Fernet) (token : bytes) : M bytes :=
  match fernet_decrypt f token with
  | Some data => ret data
  | None => raise InvalidToken
  end.

Definition loads (data : bytes) : M (list dict) :=
  match bytes_decode data with
  | None => raise ValueError
  | Some text =>
      match json_loads text with
      | Some es => ret es
      | None => raise ValueError
      end
  end.

Definition _save_vault : M bool :=
  try_except
    (let! self := get_self in
     match fernet self with
     | None => ret false
     | Some f =>
         let data := json_dumps (entries self) in
         let! encrypted_data := encrypt f (str_encode data) in
         do! OS.write_file (vault_path self) encrypted_data in
         ret true
     end)
    (fun _ => ret false).

Definition initialize_vault (master_password : string) : M bool :=
  try_except
    (let! salt := _get_or_create_salt in
     let key := _derive_key master_password salt in
     do! set_self (with_fernet (Some (MkFernet key))) in
     do! set_self (with_entries []) in
     let! _ := _save_vault in
     ret true)
    (fun _ => ret false).

Definition unlock_vault (master_password : string) : M bool :=
  try_except
    (let! self := get_self in
     let! found := OS.path_exists (vault_path self) in
     if negb found then ret false
     else
       let! salt := _get_or_create_salt in
       let key := _derive_key master_password salt in
       do! set_self (with_fernet (Some (MkFernet key))) in
       let! encrypted_data := OS.read_file (vault_path self) in
       let! decrypted_data := decrypt (MkFernet key) encrypted_data in
       let! es := loads decrypted_data in
       do! set_self (with_entries es) in
       ret true)
    (fun _ => ret false).

Definition vault_exists : M bool :=
  let! self := get_self in OS.path_exists (vault_path self).

(** [entry["site"].lower()] *)
Definition site_lower (entry : dict) : result string :=
  match entry !! "site"%string with
  | None => Raise KeyError
  | Some (VStr s) => Ok (str_lower s)
  | Some (VInt _) => Raise AttributeError
  end.

(** The loop of [_find_entry_index], from index [i] on. *)
Fixpoint find_from (i : nat) (es : list dict) (site : string) : result (option nat) :=
  match es with
  | [] => Ok None
  | entry :: es' =>
      match site_lower entry with
      | Ok s => if String.eqb s (str_lower site) then Ok (Some i)
                else find_from (S i) es' site
      | Raise e => Raise e
      | Killed => Killed
      end
  end.

Definition _find_entry_index (site : string) : M (option nat) :=
  let! self := get_self in lift (find_from 0 (entries self) site).

Definition new_entry (site username password created_at : string) : dict :=
  <["site"%string := VStr site]>
    (<["username"%string := VStr username]>
       (<["password"%string := VStr password]>
          (<["created_at"%string := VStr created_at]> ∅))).

Definition add_entry (site username password : string) : M bool :=
  let! self := get_self in
  match fernet self with
  | None => ret false
  | Some _ =>
      let! existing_index := _find_entry_index site in
      let! created_at := OS.now_isoformat in
      let entry := new_entry site username password created_at in
      do! match existing_index with
          | Some i => set_self (fun v => with_entries (<[i := entry]> (entries v)) v)
          | None => set_self (fun v => with_entries (entries v ++ [entry]) v)
          end in
      _save_vault
  end.

(** [entry.get("created_at", "Unknown")] *)
Definition created_at_or_unknown (entry : dict) : value :=
  match entry !! "created_at"%string with
  | Some c => c
  | None => VStr "Unknown"
  end.

(** The dictionary [get_entries] builds for one entry. *)
Definition listing (entry : dict) : result dict :=
  match entry !! "site"%string, entry !! "username"%string with
  | Some s, Some u =>
      Ok (<["site"%string := s]>
            (<["username"%string := u]>
               (<["created_at"%string := created_at_or_unknown entry]> ∅)))
  | _, _ => Raise KeyError
  end.

Fixpoint listings (es : list dict) : result (list dict) :=
  match es with
  | [] => Ok []
  | entry :: es' =>
      match listing entry with
      | Ok d => match listings es' with
                | Ok ds => Ok (d :: ds)
                | r => r
                end
      | Raise e => Raise e
      | Killed => Killed
      end
  end.

Definition get_entries : M (list dict) :=
  let! self := get_self in lift (listings (entries self)).

(** [needle in hay] on strings. *)
Fixpoint starts_with (needle hay : string) : bool :=
  match needle, hay with
  | EmptyString, _ => true
  | String a needle', String b hay' => Ascii.eqb a b && starts_with needle' hay'
  | String _ _, EmptyString => false
  end.

Fixpoint contains (needle hay : string) : bool :=
  starts_with needle hay
  || match hay with
     | EmptyString => false
     | String _ hay' => contains needle hay'
     end.

(** The dictionary [search_entries] builds for the entry at index [i]. *)
Definition search_match (i : nat) (entry : dict) : result dict :=
  match entry !! "site"%string, entry !! "username"%string with
  | Some s, Some u =>
      Ok (<["index"%string := VInt (Z.of_nat i)]>
            (<["site"%string := s]>
               (<["username"%string := u]>
                  (<["created_at"%string := created_at_or_unknown entry]> ∅))))
  | _, _ => Raise KeyError
  end.

(** The loop of [search_entries], from index [i] on. *)
Fixpoint search_from (i : nat) (es : list dict) (keyword_lower : string)
    : result (list dict) :=
  match es with
  | [] => Ok []
  | entry :: es' =>
      match site_lower entry with
      | Ok s =>
          if contains keyword_lower s then
            match search_match i entry with
            | Ok d => match search_from (S i) es' keyword_lower with
                      | Ok ds => Ok (d :: ds)
                      | r => r
                      end
            | Raise e => Raise e
            | Killed => Killed
            end
          else search_from (S i) es' keyword_lower
      | Raise e => Raise e
      | Killed => Killed
      end
  end.

Definition search_entries (keyword : string) : M (list dict) :=
  let keyword_lower := str_lower keyword in
  let! self := get_self in lift (search_from 0 (entries self) keyword_lower).

Fixpoint password_in (es : list dict) (site : string) : result (option value) :=
  match es with
  | [] => Ok None
  | entry :: es' =>
      match site_lower entry with
      | Ok s =>
          if String.eqb s (str_lower site) then
            match entry !! "password"%string with
            | Some p => Ok (Some p)
            | None => Raise KeyError
            end
          else password_in es' site
      | Raise e => Raise e
      | Killed => Killed
      end
  end.

Definition get_password (site : string) : M (option value) :=
  let! self := get_self in lift (password_in (entries self) site).

Fixpoint exists_in (es : list dict) (site : string) : result bool :=
  match es with
  | [] => Ok false
  | entry :: es' =>
      match site_lower entry with
      | Ok s => if String.eqb s (str_lower site) then Ok true else exists_in es' site
      | Raise e => Raise e
      | Killed => Killed
      end
  end.

Definition entry_exists (site : string) : M bool :=
  let! self := get_self in lift (exists_in (entries self) site).

End Methods.

Arguments encrypt {RT} f data s /.
Arguments decrypt {RT} f token s /.
Arguments loads {RT} data s /.

End Vault.

(** ** The command line (src/password_wallet.py) *)

Module Cli.
Section Methods.
Context `{RT : Runtime}.

(** One round of the [while True] loop of [get_user_input] per line typed:
    a round either returns, or reads one line and goes round again, so
    [fuel] rounds are enough for [fuel] lines and the [EOFError] after
    them. *)
Fixpoint get_user_input_loop (fuel : nat) (required : bool) : M string :=
  match fuel with
  | O => raise EOFError
  | S fuel' =>
      let! line := OS.input in
      let value := str_strip line in
      if negb required || negb (String.eqb value "") then ret value
      else get_user_input_loop fuel' required
  end.

Definition get_user_input (required : bool) : M string :=
  let! w := get_world in
  get_user_input_loop (S (length (stdin w))) required.

End Methods.
End Cli.

(** ** A small runtime

    An implementation of [Runtime] simple enough to have its laws proved
    here: ASCII case folding and stripping, UTC time stamps, and a cipher and
    a record codec built on length-framed byte strings. It shows that the
    laws can be met, and lets the model run on concrete inputs. *)

Module Toy.

Definition lower_ascii (c : ascii) : ascii :=
  let n := nat_of_ascii c in
  if ((65 <=? n) && (n <=? 90))%nat then ascii_of_nat (n + 32) else c.

Fixpoint lower (s : string) : string :=
  match s with
  | EmptyString => EmptyString
  | String c s' => String (lower_ascii c) (lower s')
  end.

Definition is_space (c : ascii) : bool :=
  let n := nat_of_ascii c in
  ((n =? 32) || ((9 <=? n) && (n <=? 13)) || ((28 <=? n) && (n <=? 31)))%nat.

Fixpoint lstrip (cs : list ascii) : list ascii :=
  match cs with
  | c :: cs' => if is_space c then lstrip cs' else cs
  | [] => []
  end.

Definition strip (s : string) : string :=
  string_of_list_ascii
    (rev (lstrip (rev (lstrip (list_ascii_of_string s))))).

(** [n] decimal digits of [z], most significant first. *)
Fixpoint digits (n : nat) (z : Z) : string :=
  match n with
  | O => EmptyString
  | S n' => (digits n' (z / 10) ++ String (ascii_of_nat (48 + Z.to_nat (z mod 10))) EmptyString)%string
  end.

(** The civil date of a day number counted from 1970-01-01. *)
Definition civil (days : Z) : Z * Z * Z :=
  let z := days + 719468 in
  let era := z / 146097 in
  let doe := z - era * 146097 in
  let yoe := (doe - doe / 1460 + doe / 36524 - doe / 146096) / 365 in
  let doy := doe - (365 * yoe + yoe / 4 - yoe / 100) in
  let mp := (5 * doy + 2) / 153 in
  let d := doy - (153 * mp + 2) / 5 + 1 in
  let m := if mp <? 10 then mp + 3 else mp - 9 in
  let y := yoe + era * 400 + (if m <=? 2 then 1 else 0) in
  (y, m, d).

Definition iso (clock : Z) : string :=
  let secs := clock / 1000000 in
  let '(y, m, d) := civil (secs / 86400) in
  let t := secs mod 86400 in
  (digits 4 y ++ "-" ++ digits 2 m ++ "-" ++ digits 2 d ++ "T"
   ++ digits 2 (t / 3600) ++ ":" ++ digits 2 (t / 60 mod 60) ++ ":"
   ++ digits 2 (t mod 60))%string.

(** *** Length-framed byte strings *)

Definition unary (n : nat) : bytes := repeat x01 n ++ [x00].

Fixpoint read_unary (bs : bytes) : option (nat * bytes) :=
  match bs with
  | b :: rest =>
      if Byte.eqb b x00 then Some (O, rest)
      else if Byte.eqb b x01 then
        match read_unary rest with
        | Some (n, rest') => Some (S n, rest')
        | None => None
        end
      else None
  | [] => None
  end.

Definition frame (x : bytes) : bytes := unary (length x) ++ x.

Definition unframe (bs : bytes) : option (bytes * bytes) :=
  match read_unary bs with
  | Some (n, rest) =>
      if (length rest <? n)%nat then None else Some (firstn n rest, skipn n rest)
  | None => None
  end.

(** *** The cipher: the token carries time, vector and key in clear *)

Definition bytes_eqb (xs ys : bytes) : bool := bool_decide (xs = ys).

Definition encrypt (f : Fernet) (t : Z) (iv data : bytes) : bytes :=
  frame (be_bytes 8 t) ++ frame iv ++ frame (fernet_key f) ++ data.

Definition decrypt (f : Fernet) (token : bytes) : option bytes :=
  match unframe token with
  | Some (_, r1) =>
      match unframe r1 with
      | Some (_, r2) =>
          match unframe r2 with
          | Some (k, data) => if bytes_eqb k (fernet_key f) then Some data else None
          | None => None
          end
      | None => None
      end
  | None => None
  end.

(** *** The record codec *)

Definition enc_value (v : value) : bytes :=
  match v with
  | VStr s => x00 :: frame (str_encode s)
  | VInt n => (if 0 <=? n then x01 else x02) :: unary (Z.abs_nat n)
  end.

Definition dec_value (bs : bytes) : option (value * bytes) :=
  match bs with
  | tag :: rest =>
      if Byte.eqb tag x00 then
        match unframe rest with
        | Some (s, rest') => Some (VStr (string_of_list_byte s), rest')
        | None => None
        end
      else
        match read_unary rest with
        | Some (n, rest') =>
            if Byte.eqb tag x01 then Some (VInt (Z.of_nat n), rest')
            else if Byte.eqb tag x02 then Some (VInt (- Z.of_nat n), rest')
            else None
        | None => None
        end
  | [] => None
  end.

Definition enc_pair (kv : string * value) : bytes :=
  frame (str_encode (fst kv)) ++ enc_value (snd kv).

Definition dec_pair (bs : bytes) : option ((string * value) * bytes) :=
  match unframe bs with
  | Some (k, rest) =>
      match dec_value rest with
      | Some (v, rest') => Some ((string_of_list_byte k, v), rest')
      | None => None
      end
  | None => None
  end.

Definition enc_many {A} (enc : A -> bytes) (xs : list A) : bytes :=
  unary (length xs) ++ flat_map enc xs.

Fixpoint dec_n {A} (dec : bytes -> option (A * bytes)) (n : nat) (bs : bytes)
    : option (list A * bytes) :=
  match n with
  | O => Some ([], bs)
  | S n' =>
      match dec bs with
      | Some (x, rest) =>
          match dec_n dec n' rest with
          | Some (xs, rest') => Some (x :: xs, rest')
          | None => None
          end
      | None => None
      end
  end.

Definition dec_many {A} (dec : bytes -> option (A * bytes)) (bs : bytes)
    : option (list A * bytes) :=
  match read_unary bs with
  | Some (n, rest) => dec_n dec n rest
  | None => None
  end.

Definition enc_dict (d : dict) : bytes := enc_many enc_pair (map_to_list d).

Definition dec_dict (bs : bytes) : option (dict * bytes) :=
  match dec_many dec_pair bs with
  | Some (kvs, rest) => Some (list_to_map kvs, rest)
  | None => None
  end.

Definition dumps (es : list dict) : string :=
  string_of_list_byte (enc_many enc_dict es).

Definition loads (text : string) : option (list dict) :=
  match dec_many dec_dict (list_byte_of_string text) with
  | Some (es, []) => Some es
  | _ => None
  end.

(** *** The key derivation: password and salt, cut or padded to length *)

Definition kdf (password salt : bytes) (iterations : N) (length : nat) : bytes :=
  firstn length (frame password ++ salt ++ repeat x00 length).

(** *** The runtime, for a key derivation [derive] *)

Definition with_kdf (derive : bytes -> bytes -> N -> nat -> bytes) : Runtime := {|
  pbkdf2_derive := derive;
  str_lower := lower;
  str_strip := strip;
  isoformat := iso;
  json_dumps := dumps;
  json_loads := loads;
  bytes_decode := fun bs => Some (string_of_list_byte bs);
  fernet_encrypt := encrypt;
  fernet_decrypt := decrypt;
|}.

#[export] Instance runtime : Runtime := with_kdf kdf.

Lemma read_unary_unary n rest : read_unary (unary n ++ rest) = Some (n, rest).
Proof.
  induction n as [|n IH]; [reflexivity|].
  unfold unary in *. cbn [repeat app read_unary]. cbn [Byte.eqb].
  change (Byte.eqb x01 x00) with false. change (Byte.eqb x01 x01) with true.
  cbv iota. now rewrite IH.
Qed.

Lemma unframe_frame x rest : unframe (frame x ++ rest) = Some (x, rest).
Proof.
  unfold unframe, frame. rewrite <- app_assoc, read_unary_unary.
  rewrite length_app.
  destruct (Nat.ltb_spec (length x + length rest) (length x)); [lia|].
  rewrite firstn_app, Nat.sub_diag, firstn_all, firstn_O, app_nil_r.
  now rewrite skipn_app, Nat.sub_diag, skipn_all.
Qed.

Lemma bytes_eqb_eq xs ys : bytes_eqb xs ys = true <-> xs = ys.
Proof. unfold bytes_eqb. apply bool_decide_eq_true. Qed.

Lemma decrypt_encrypt f t iv data : decrypt f (encrypt f t iv data) = Some data.
Proof.
  unfold decrypt, encrypt. rewrite !unframe_frame.
  now rewrite (proj2 (bytes_eqb_eq _ _) eq_refl).
Qed.

Lemma decrypt_other_key f f' t iv data :
  f <> f' -> decrypt f' (encrypt f t iv data) = None.
Proof.
  intros Hne. unfold decrypt, encrypt. rewrite !unframe_frame.
  destruct (bytes_eqb (fernet_key f) (fernet_key f')) eqn:E; [|reflexivity].
  apply bytes_eqb_eq in E. destruct f, f'; cbn in E. congruence.
Qed.

Lemma dec_value_enc v rest : dec_value (enc_value v ++ rest) = Some (v, rest).
Proof.
  destruct v as [s|n]; cbn [enc_value app dec_value].
  - change (Byte.eqb x00 x00) with true. cbv iota.
    rewrite unframe_frame. unfold str_encode.
    now rewrite string_of_list_byte_of_string.
  - destruct (Z.leb_spec 0 n).
    + change (Byte.eqb x01 x00) with false. change (Byte.eqb x01 x01) with true.
      cbv iota. rewrite read_unary_unary. do 3 f_equal. lia.
    + change (Byte.eqb x02 x00) with false. change (Byte.eqb x02 x01) with false.
      change (Byte.eqb x02 x02) with true.
      cbv iota. rewrite read_unary_unary. do 3 f_equal. lia.
Qed.

Lemma dec_pair_enc kv rest : dec_pair (enc_pair kv ++ rest) = Some (kv, rest).
Proof.
  destruct kv as [k v]. unfold dec_pair, enc_pair. cbn [fst snd].
  rewrite <- app_assoc, unframe_frame, dec_value_enc. unfold str_encode.
  now rewrite string_of_list_byte_of_string.
Qed.

Lemma dec_many_enc {A} (enc : A -> bytes) dec :
  (forall x rest, dec (enc x ++ rest) = Some (x, rest)) ->
  forall xs rest, dec_many dec (enc_many enc xs ++ rest) = Some (xs, rest).
Proof.
  intros Hdec xs rest. unfold dec_many, enc_many.
  rewrite <- app_assoc, read_unary_unary.
  induction xs as [|x xs IH]; [reflexivity|].
  cbn [length flat_map dec_n]. now rewrite <- app_assoc, Hdec, IH.
Qed.

Lemma dec_dict_enc d rest : dec_dict (enc_dict d ++ rest) = Some (d, rest).
Proof.
  unfold dec_dict, enc_dict. rewrite (dec_many_enc _ _ dec_pair_enc).
  now rewrite list_to_map_to_list.
Qed.

Lemma loads_dumps es : loads (dumps es) = Some es.
Proof.
  unfold loads, dumps. rewrite list_byte_of_string_of_list_byte.
  rewrite <- (app_nil_r (enc_many enc_dict es)).
  now rewrite (dec_many_enc _ _ dec_dict_enc).
Qed.

Lemma with_kdf_laws derive : RuntimeLaws (with_kdf derive).
Proof.
  split.
  - exact loads_dumps.
  - intros s. cbn. unfold str_encode. now rewrite string_of_list_byte_of_string.
  - exact decrypt_encrypt.
Qed.

Lemma with_kdf_authentic derive : FernetAuthentic (with_kdf derive).
Proof. exact decrypt_other_key. Qed.

#[export] Instance laws : RuntimeLaws runtime := with_kdf_laws kdf.
#[export] Instance authentic : FernetAuthentic runtime := with_kdf_authentic kdf.

End Toy.

(** The small runtime with the key derivation of the standards: what the
    vault derives its keys with. *)

Module Rfc.

Definition runtime : Runtime := Toy.with_kdf KDF.pbkdf2_hmac_sha256.

Lemma laws : RuntimeLaws runtime.
Proof. exact (Toy.with_kdf_laws _). Qed.

Lemma authentic : FernetAuthentic runtime.
Proof. exact (Toy.with_kdf_authentic _). Qed.

Lemma rfc8018 : Rfc8018 runtime.
Proof. intros password salt iterations length. reflexivity. Qed.

End Rfc.

(** ** Key derivation: what a passphrase contributes *)

Module KDFFacts.
Import KDF.

Lemma str_encode_app (s1 s2 : string) :
  str_encode (s1 +:+ s2) = str_encode s1 ++ str_encode s2.
Proof.
  unfold str_encode. induction s1 as [|c s1 IH]; [reflexivity|].
  change (byte_of_ascii c :: list_byte_of_string (s1 +:+ s2)
          = byte_of_ascii c :: (list_byte_of_string s1 ++ list_byte_of_string s2)).
  now rewrite IH.
Qed.

Lemma str_encode_length s : length (str_encode s) = String.length s.
Proof.
  unfold str_encode. induction s as [|c s IH]; [reflexivity|].
  change (S (length (list_byte_of_string s)) = S (String.length s)).
  now rewrite IH.
Qed.

(** [chr(0)] as a one-character string. *)
Definition nul : string := String Ascii.zero EmptyString.

(** HMAC pads a short key with zero bytes, so a key and the same key
    followed by a zero byte give the same block. *)
Lemma hmac_key_block_nul key :
  (length key < block_size)%nat ->
  hmac_key_block (key ++ [x00]) = hmac_key_block key.
Proof.
  unfold hmac_key_block, block_size. intros Hlt. cbv zeta.
  rewrite length_app. cbn [length].
  destruct (Nat.ltb_spec 64 (length key + 1)); [lia|].
  destruct (Nat.ltb_spec 64 (length key)); [lia|].
  rewrite length_app, <- app_assoc. cbn [length]. f_equal.
  replace (64 - length key)%nat with (S (64 - (length key + 1)))%nat by lia.
  reflexivity.
Qed.

Lemma hmac_sha256_nul key msg :
  (length key < block_size)%nat ->
  hmac_sha256 (key ++ [x00]) msg = hmac_sha256 key msg.
Proof. intros Hlt. unfold hmac_sha256. now rewrite hmac_key_block_nul. Qed.

Lemma N_iter_ext {A} (f g : A -> A) :
  (forall x, f x = g x) -> forall n x, N.iter n f x = N.iter n g x.
Proof.
  intros Hfg n x. induction n as [|n IH] using N.peano_ind; [reflexivity|].
  now rewrite !N.iter_succ, IH, Hfg.
Qed.

Lemma pbkdf2_block_nul password salt c i :
  (length password < block_size)%nat ->
  pbkdf2_block (password ++ [x00]) salt c i = pbkdf2_block password salt c i.
Proof.
  intros Hlt. unfold pbkdf2_block. rewrite hmac_sha256_nul by assumption.
  f_equal. apply N_iter_ext. intros ut. now rewrite hmac_sha256_nul.
Qed.

Lemma pbkdf2_nul password salt c n :
  (length password < block_size)%nat ->
  pbkdf2_hmac_sha256 (password ++ [x00]) salt c n
  = pbkdf2_hmac_sha256 password salt c n.
Proof.
  intros Hlt. unfold pbkdf2_hmac_sha256. f_equal.
  induction (seq 1 ((n + 31) / 32)) as [|i l IH]; [reflexivity|].
  cbn [flat_map]. now rewrite IH, pbkdf2_block_nul.
Qed.

End KDFFacts.

Opaque KDF.pbkdf2_hmac_sha256.

(** ** Properties *)

Module Props.
Import Vault.
Section WithRuntime.
Context `{RT : Runtime}.


Ltac step :=
  cbn [OS.path_exists OS.read_file OS.open_wb OS.write OS.write_file OS.urandom
       OS.time_time OS.now_isoformat OS.tick encrypt decrypt loads
       bind ret raise try_except lift get_self get_world set_self set_world
       fst snd files denied clock entropy drawn fuse stdin
       set_files set_drawn set_fuse set_stdin OS.input
       vault_path salt_path entries fernet with_entries with_fernet negb].

Ltac run :=
  unfold add_entry, _save_vault, initialize_vault, unlock_vault,
         _get_or_create_salt, _find_entry_index, get_entries, search_entries;
  step.

(** *** What a save writes *)

(** The token a save of [v] in world [w] under [f] produces. *)
Definition token_of (v : PasswordVault) (w : World) (f : Fernet) : bytes :=
  fernet_encrypt f (clock w / 1000000) (map (entropy w) (seq (drawn w) 16))
                 (str_encode (json_dumps (entries v))).

Lemma save_vault_true_inv v w s' :
  _save_vault (v, w) = (Ok true, s') ->
  exists f, fernet v = Some f /\ fst s' = v
            /\ files (snd s') = <[vault_path v := token_of v w f]> (files w)
            /\ denied (snd s') = denied w.
Proof.
  destruct v as [vp sp es [f|]], w as [fs dn ck en dr fu si]; run; [|discriminate].
  destruct (decide _) as [|Hnd]; step; [discriminate|].
  destruct fu as [[[|[|n]] [written|written]]|]; step; try discriminate;
    intros [= <-]; exists f; step; rewrite insert_insert_eq; auto.
Qed.

(** The world a completed save leaves. *)
Definition after_save (v : PasswordVault) (w : World) (f : Fernet) : World :=
  set_files (<[vault_path v := token_of v w f]> (files w))
            (set_drawn (drawn w + 16) w).

Lemma save_vault_ok v w f :
  fernet v = Some f -> vault_path v ∉ denied w -> fuse w = None ->
  _save_vault (v, w) = (Ok true, (v, after_save v w f)).
Proof.
  destruct v as [vp sp es k], w as [fs dn ck en dr fu si]; cbn [fernet vault_path denied fuse].
  intros -> Hnd ->. run. destruct (decide _) as [|_]; [contradiction|]. step.
  unfold after_save, token_of; step. now rewrite insert_insert_eq.
Qed.

(** *** The salt *)

Lemma get_or_create_salt_existing v w salt :
  files w !! salt_path v = Some salt -> salt_path v ∉ denied w ->
  _get_or_create_salt (v, w) = (Ok salt, (v, w)).
Proof.
  intros Hs Hnd. run. rewrite Hs. step.
  destruct (decide _) as [|_]; [contradiction|]. now rewrite Hs.
Qed.

Lemma get_or_create_salt_denied v w salt :
  files w !! salt_path v = Some salt -> salt_path v ∈ denied w ->
  _get_or_create_salt (v, w) = (Raise OSError, (v, w)).
Proof.
  intros Hs Hd. run. rewrite Hs. step.
  destruct (decide _) as [_|]; [reflexivity|contradiction].
Qed.

(** *** Unlocking *)

Lemma unlock_vault_missing P v w :
  files w !! vault_path v = None -> unlock_vault P (v, w) = (Ok false, (v, w)).
Proof. intros Hv. run. now rewrite Hv. Qed.

Lemma unlock_vault_decrypts `{!RuntimeLaws RT} P v w salt t iv R :
  files w !! salt_path v = Some salt ->
  files w !! vault_path v
  = Some (fernet_encrypt (MkFernet (_derive_key P salt)) t iv
                         (str_encode (json_dumps R))) ->
  salt_path v ∉ denied w -> vault_path v ∉ denied w ->
  unlock_vault P (v, w)
  = (Ok true, (MkVault (vault_path v) (salt_path v) R
                       (Some (MkFernet (_derive_key P salt))), w)).
Proof.
  intros Hs Hv Hns Hnv. unfold unlock_vault. step. rewrite Hv. step.
  rewrite (get_or_create_salt_existing _ _ _ Hs Hns). step.
  destruct (decide _) as [|_]; [contradiction|]. rewrite Hv. step.
  rewrite fernet_decrypt_encrypt. step.
  rewrite bytes_decode_encode, json_loads_dumps. reflexivity.
Qed.

(** When the token does not decrypt, the call returns [False] with the
    key it derived still in [self.fernet]. *)
Lemma unlock_vault_undecryptable P v w salt token :
  files w !! salt_path v = Some salt ->
  files w !! vault_path v = Some token ->
  salt_path v ∉ denied w -> vault_path v ∉ denied w ->
  fernet_decrypt (MkFernet (_derive_key P salt)) token = None ->
  unlock_vault P (v, w)
  = (Ok false, (with_fernet (Some (MkFernet (_derive_key P salt))) v, w)).
Proof.
  intros Hs Hv Hns Hnv Hd. unfold unlock_vault. step. rewrite Hv. step.
  rewrite (get_or_create_salt_existing _ _ _ Hs Hns). step.
  destruct (decide _) as [|_]; [contradiction|]. rewrite Hv. step.
  rewrite Hd. reflexivity.
Qed.

Lemma unlock_vault_salt_denied P v w salt token :
  files w !! salt_path v = Some salt ->
  files w !! vault_path v = Some token ->
  salt_path v ∈ denied w ->
  unlock_vault P (v, w) = (Ok false, (v, w)).
Proof.
  intros Hs Hv Hds. unfold unlock_vault. step. rewrite Hv. step.
  rewrite (get_or_create_salt_denied _ _ _ Hs Hds). reflexivity.
Qed.

Lemma unlock_vault_file_denied P v w salt token :
  files w !! salt_path v = Some salt ->
  files w !! vault_path v = Some token ->
  salt_path v ∉ denied w -> vault_path v ∈ denied w ->
  unlock_vault P (v, w)
  = (Ok false, (with_fernet (Some (MkFernet (_derive_key P salt))) v, w)).
Proof.
  intros Hs Hv Hns Hdv. unfold unlock_vault. step. rewrite Hv. step.
  rewrite (get_or_create_salt_existing _ _ _ Hs Hns). step.
  destruct (decide _) as [|]; [reflexivity|contradiction].
Qed.

(** *** Sessions *)

(** The vault on disk is sealed with the passphrase [P]: the key in memory
    is the one [P] derives from the stored salt, and the vault file is a
    token under that key of the record set in memory. *)
Definition sealed (P : string) (s : State) : Prop :=
  vault_path (fst s) <> salt_path (fst s)
  /\ exists salt t iv,
       files (snd s) !! salt_path (fst s) = Some salt
       /\ fernet (fst s) = Some (MkFernet (_derive_key P salt))
       /\ files (snd s) !! vault_path (fst s)
          = Some (fernet_encrypt (MkFernet (_derive_key P salt)) t iv
                                 (str_encode (json_dumps (entries (fst s))))).

Lemma sealed_after_save P v w f s' :
  vault_path v <> salt_path v ->
  fernet v = Some f ->
  (exists salt, files w !! salt_path v = Some salt
                /\ f = MkFernet (_derive_key P salt)) ->
  _save_vault (v, w) = (Ok true, s') ->
  sealed P s'.
Proof.
  intros Hne Hf (salt & Hs & ->) Hsave.
  destruct (save_vault_true_inv _ _ _ Hsave) as (f' & Hf' & Hv & Hfiles & _).
  rewrite Hf in Hf'. injection Hf' as <-.
  split; rewrite Hv; [assumption|].
  exists salt, (clock w / 1000000), (map (entropy w) (seq (drawn w) 16)).
  rewrite Hfiles. rewrite lookup_insert_ne by assumption.
  rewrite lookup_insert_eq. auto.
Qed.

Lemma initialize_vault_sealed P v w s :
  vault_path v <> salt_path v -> vault_path v ∉ denied w -> fuse w = None ->
  initialize_vault P (v, w) = (Ok true, s) ->
  sealed P s /\ entries (fst s) = []
  /\ vault_path (fst s) = vault_path v /\ salt_path (fst s) = salt_path v.
Proof.
  destruct v as [vp sp es k], w as [fs dn ck en dr fu si].
  cbn [vault_path salt_path denied fuse]. intros Hne Hnd ->.
  unfold initialize_vault, _get_or_create_salt. step.
  destruct (fs !! sp) as [salt|] eqn:Hs; step;
    (destruct (decide _) as [|Hns]; step; [discriminate|]).
  - rewrite Hs. step.
    set (f := MkFernet (_derive_key P salt)).
    set (v' := MkVault vp sp [] (Some f)).
    set (w' := MkWorld fs dn ck en dr None si).
    pose proof (save_vault_ok v' w' f eq_refl Hnd eq_refl) as Hsave.
    rewrite Hsave. step. intros [= <-]. split; [|now cbn].
    apply (sealed_after_save P v' w' f _ Hne eq_refl); [|exact Hsave].
    exists salt. auto.
  - set (salt := map en (seq dr 16)).
    set (f := MkFernet (_derive_key P salt)).
    set (v' := MkVault vp sp [] (Some f)).
    set (w' := MkWorld (<[sp := salt]> (<[sp := []]> fs)) dn ck en (dr + 16) None si).
    pose proof (save_vault_ok v' w' f eq_refl Hnd eq_refl) as Hsave.
    rewrite Hsave. step. intros [= <-]. split; [|now cbn].
    apply (sealed_after_save P v' w' f _ Hne eq_refl); [|exact Hsave].
    exists salt. cbn [files w' salt_path v']. now rewrite lookup_insert_eq.
Qed.

(** *** Adding an entry *)

(** Where [add_entry] puts the new entry: over the entry found, or at the
    end. *)
Definition place (idx : option nat) (entry : dict) (es : list dict) : list dict :=
  match idx with
  | Some i => <[i := entry]> es
  | None => es ++ [entry]
  end.

Lemma add_entry_unlocked v w f site username password idx :
  fernet v = Some f ->
  find_from 0 (entries v) site = Ok idx ->
  add_entry site username password (v, w)
  = _save_vault
      (with_entries
         (place idx (new_entry site username password (isoformat (clock w)))
                (entries v)) v, w).
Proof.
  intros Hf Hfind. unfold add_entry, _find_entry_index. step.
  rewrite Hf. step. rewrite Hfind. step. destruct idx; step; now rewrite Hf.
Qed.

Lemma add_entry_true_inv v w site username password s' :
  add_entry site username password (v, w) = (Ok true, s') ->
  exists f idx,
    fernet v = Some f /\ find_from 0 (entries v) site = Ok idx
    /\ _save_vault
         (with_entries
            (place idx (new_entry site username password (isoformat (clock w)))
                   (entries v)) v, w) = (Ok true, s').
Proof.
  intros H. destruct (fernet v) as [f|] eqn:Hf.
  - destruct (find_from 0 (entries v) site) as [idx|e|] eqn:Hfind.
    + exists f, idx. erewrite add_entry_unlocked in H by eauto. auto.
    + revert H. unfold add_entry, _find_entry_index. step.
      rewrite Hf. step. rewrite Hfind. discriminate.
    + revert H. unfold add_entry, _find_entry_index. step.
      rewrite Hf. step. rewrite Hfind. discriminate.
  - revert H. unfold add_entry. step. rewrite Hf. discriminate.
Qed.

(** A session under the passphrase [P]: the vault is initialised with [P]
    (on paths that can be written), and from then on entries are added,
    record sets are saved, the process is restarted and the vault unlocked
    again with [P], while the world may change anything but the files. *)
Inductive session (P : string) : State -> Prop :=
  | session_initialize v w s :
      vault_path v <> salt_path v -> vault_path v ∉ denied w -> fuse w = None ->
      initialize_vault P (v, w) = (Ok true, s) ->
      session P s
  | session_add s site username password s' :
      session P s ->
      add_entry site username password s = (Ok true, s') ->
      session P s'
  | session_save v w R s' :
      session P (v, w) ->
      _save_vault (with_entries R v, w) = (Ok true, s') ->
      session P s'
  | session_restart v w v0 s' :
      session P (v, w) ->
      vault_path v0 = vault_path v -> salt_path v0 = salt_path v ->
      unlock_vault P (v0, w) = (Ok true, s') ->
      session P s'
  | session_world v w w' :
      session P (v, w) -> files w' = files w ->
      session P (v, w').

Lemma unlock_vault_sealed `{!RuntimeLaws RT} P v w v0 w' :
  sealed P (v, w) ->
  vault_path v0 = vault_path v -> salt_path v0 = salt_path v ->
  files w' = files w ->
  salt_path v ∉ denied w' -> vault_path v ∉ denied w' ->
  unlock_vault P (v0, w')
  = (Ok true, (MkVault (vault_path v) (salt_path v) (entries v) (fernet v), w')).
Proof.
  intros (Hne & salt & t & iv & Hs & Hf & Hv) Hvp Hsp Hfs Hns Hnv.
  cbn [fst snd] in *. rewrite <- Hvp, <- Hsp, <- Hfs in *.
  erewrite unlock_vault_decrypts by eauto. now rewrite Hf.
Qed.

Lemma unlock_vault_true_inv `{!RuntimeLaws RT} P v w v0 s' :
  sealed P (v, w) ->
  vault_path v0 = vault_path v -> salt_path v0 = salt_path v ->
  unlock_vault P (v0, w) = (Ok true, s') ->
  s' = (MkVault (vault_path v) (salt_path v) (entries v) (fernet v), w).
Proof.
  intros Hsealed Hvp Hsp Hu.
  destruct (decide (salt_path v ∈ denied w)) as [Hds|Hns];
    [|destruct (decide (vault_path v ∈ denied w)) as [Hdv|Hnv]].
  - exfalso. destruct Hsealed as (Hne & salt & t & iv & Hs & Hf & Hv).
    cbn [fst snd] in *. rewrite <- Hvp, <- Hsp in *.
    rewrite (unlock_vault_salt_denied P v0 w _ _ Hs Hv Hds) in Hu. discriminate.
  - exfalso. destruct Hsealed as (Hne & salt & t & iv & Hs & Hf & Hv).
    cbn [fst snd] in *. rewrite <- Hvp, <- Hsp in *.
    rewrite (unlock_vault_file_denied P v0 w _ _ Hs Hv Hns Hdv) in Hu. discriminate.
  - erewrite unlock_vault_sealed in Hu by eauto. congruence.
Qed.

Lemma session_sealed `{!RuntimeLaws RT} P s : session P s -> sealed P s.
Proof.
  induction 1 as [v w s Hne Hnd Hfu Hinit
                 |[v w] site username password s' _ IH Hadd
                 |v w R s' _ IH Hsave
                 |v w v0 s' _ IH Hvp Hsp Hu
                 |v w w' _ IH Hfs].
  - now apply (initialize_vault_sealed P v w s).
  - apply add_entry_true_inv in Hadd as (f & idx & Hf & _ & Hsave).
    destruct IH as (Hne & salt & t & iv & Hs & Hk & _). cbn [fst snd] in *.
    refine (sealed_after_save P _ w f s' _ _ _ Hsave); [exact Hne|exact Hf|].
    exists salt. split; [exact Hs|congruence].
  - destruct IH as (Hne & salt & t & iv & Hs & Hk & _). cbn [fst snd] in *.
    refine (sealed_after_save P _ w _ s' _ _ _ Hsave); [exact Hne|exact Hk|].
    exists salt. auto.
  - rewrite (unlock_vault_true_inv P v w v0 s' IH Hvp Hsp Hu).
    destruct IH as (Hne & salt & t & iv & Hs & Hk & Hv). cbn [fst snd] in *.
    split; [exact Hne|]. exists salt, t, iv. auto.
  - destruct IH as (Hne & salt & t & iv & Hs & Hk & Hv). cbn [fst snd] in *.
    split; [exact Hne|]. exists salt, t, iv. cbn [fst snd]. rewrite Hfs. auto.
Qed.

(** *** Initialising, step by step *)

(** The salt [_get_or_create_salt] returns in [w], and the world it
    leaves, when the salt path can be opened and the process is left to
    run. *)
Definition salt_of (v : PasswordVault) (w : World) : bytes :=
  match files w !! salt_path v with
  | Some salt => salt
  | None => map (entropy w) (seq (drawn w) 16)
  end.

Definition with_salt (v : PasswordVault) (w : World) : World :=
  match files w !! salt_path v with
  | Some _ => w
  | None => set_files (<[salt_path v := salt_of v w]> (files w))
                      (set_drawn (drawn w + 16) w)
  end.

Lemma get_or_create_salt_ok v w :
  salt_path v ∉ denied w -> fuse w = None ->
  _get_or_create_salt (v, w) = (Ok (salt_of v w), (v, with_salt v w)).
Proof.
  intros Hns Hfu. unfold salt_of, with_salt.
  destruct (files w !! salt_path v) as [salt|] eqn:Hs.
  - now apply get_or_create_salt_existing.
  - destruct v as [vp sp es k], w as [fs dn ck en dr fu si]. cbn in Hns, Hfu, Hs.
    subst fu. run. rewrite Hs. step.
    destruct (decide _) as [|_]; [contradiction|]. step.
    rewrite insert_insert_eq. unfold salt_of. step. now rewrite Hs.
Qed.

Definition initialized (P : string) (v : PasswordVault) (w : World) : State :=
  let f := MkFernet (_derive_key P (salt_of v w)) in
  let v1 := MkVault (vault_path v) (salt_path v) [] (Some f) in
  (v1, after_save v1 (with_salt v w) f).

Lemma initialize_vault_ok P v w :
  salt_path v ∉ denied w -> vault_path v ∉ denied w -> fuse w = None ->
  initialize_vault P (v, w) = (Ok true, initialized P v w).
Proof.
  intros Hns Hnv Hfu. unfold initialize_vault. step.
  rewrite get_or_create_salt_ok by assumption. step.
  erewrite save_vault_ok; [reflexivity|reflexivity| |];
    unfold with_salt; destruct (files w !! salt_path v); assumption.
Qed.

(** C1. Round trip. Whatever a session under [P] has initialised or saved
    (any record set [R], by [session_save]), a vault object bound to the
    same two paths, in any world with the same files that lets it read
    them, unlocks with [P], and holds after it the record set of the
    session: the same dictionaries in the same order. *)
Theorem unlock_reproduces_saved_records `{!RuntimeLaws RT}
    (P : string) (s : State) (v0 : PasswordVault) (w' : World) :
  session P s ->
  vault_path v0 = vault_path (fst s) -> salt_path v0 = salt_path (fst s) ->
  files w' = files (snd s) ->
  salt_path v0 ∉ denied w' -> vault_path v0 ∉ denied w' ->
  unlock_vault P (v0, w')
  = (Ok true, (MkVault (vault_path v0) (salt_path v0)
                       (entries (fst s)) (fernet (fst s)), w')).
Proof.
  intros Hsess Hvp Hsp Hfs Hns Hnv. destruct s as [v w]. cbn [fst snd] in *.
  rewrite Hvp, Hsp in *.
  now apply (unlock_vault_sealed P v w v0 w' (session_sealed P _ Hsess)).
Qed.

Lemma save_vault_keeps_self v w : fst (snd (_save_vault (v, w))) = v.
Proof.
  destruct v as [vp sp es [f|]], w as [fs dn ck en dr fu si]; run; [|reflexivity].
  destruct (decide _) as [|_]; step; [reflexivity|].
  destruct fu as [[[|[|n]] [written|written]]|]; reflexivity.
Qed.

(** The entry has a site, and it is the given one up to case. *)
Definition has_site (e : dict) : Prop :=
  exists x, e !! "site"%string = Some (VStr x).

Definition same_site (site : string) (e : dict) : Prop :=
  exists x, e !! "site"%string = Some (VStr x) /\ str_lower x = str_lower site.

Lemma find_from_first i es site :
  Forall has_site es ->
  (exists k e, find_from i es site = Ok (Some (i + k)%nat)
               /\ es !! k = Some e /\ same_site site e
               /\ forall j e', (j < k)%nat -> es !! j = Some e' -> ~ same_site site e')
  \/ (find_from i es site = Ok None /\ Forall (fun e => ~ same_site site e) es).
Proof.
  intros Hwf. revert i. induction Hwf as [|e es [x Hx] _ IH]; intros i.
  - right. split; [reflexivity|constructor].
  - cbn [find_from]. unfold site_lower. rewrite Hx.
    destruct (String.eqb (str_lower x) (str_lower site)) eqn:E.
    + apply String.eqb_eq in E. left. exists 0%nat, e.
      rewrite Nat.add_0_r. repeat split; [|lia]. now exists x.
    + apply String.eqb_neq in E.
      assert (~ same_site site e) as Hno.
      { intros (y & Hy & Hl). congruence. }
      destruct (IH (S i)) as [(k & e' & Hf & Hk & Hsame & Hfirst)|[Hf Hnone]].
      * left. exists (S k), e'. rewrite Hf. repeat split; auto.
        -- f_equal. f_equal. lia.
        -- intros [|j] e'' Hj Hl; cbn in Hl; [congruence|].
           apply (Hfirst j); [lia|assumption].
      * right. split; [assumption|]. now constructor.
Qed.


(** *** Listing and searching *)

(** What [get_entries] shows of an entry [e]: its site, its user name and
    its creation time (or ["Unknown"]), these three keys and no other. *)
Definition listed (e d : dict) : Prop :=
  d !! "site"%string = e !! "site"%string
  /\ d !! "username"%string = e !! "username"%string
  /\ d !! "created_at"%string = Some (created_at_or_unknown e)
  /\ dom d = ({["site"; "username"; "created_at"]} : gset string)%string
  /\ d !! "password"%string = None.

Definition has_site_and_username (e : dict) : Prop :=
  is_Some (e !! "site"%string) /\ is_Some (e !! "username"%string).

Lemma listing_listed e :
  has_site_and_username e -> exists d, listing e = Ok d /\ listed e d.
Proof.
  intros [[x Hx] [u Hu]]. unfold listing. rewrite Hx, Hu. eexists. split; [reflexivity|].
  unfold listed. rewrite Hx, Hu. split; [|split; [|split; [|split]]].
  - now rewrite lookup_insert_eq.
  - rewrite lookup_insert_ne by discriminate. now rewrite lookup_insert_eq.
  - do 2 (rewrite lookup_insert_ne by discriminate). now rewrite lookup_insert_eq.
  - rewrite !dom_insert_L, dom_empty_L. set_solver.
  - do 3 (rewrite lookup_insert_ne by discriminate). apply lookup_empty.
Qed.

Lemma listings_listed es :
  Forall has_site_and_username es ->
  exists ds, listings es = Ok ds /\ Forall2 listed es ds.
Proof.
  induction 1 as [|e es He _ (ds & Hds & IH)].
  - exists []. split; [reflexivity|constructor].
  - destruct (listing_listed e He) as (d & Hd & Hl).
    exists (d :: ds). cbn [listings]. rewrite Hd, Hds. split; [reflexivity|].
    now constructor.
Qed.

(** C6. When every entry has a site and a user name, [get_entries] returns
    one dictionary per entry, in the order of the record set, each with the
    site, user name and creation time of its entry under exactly the keys
    [site], [username] and [created_at]: no [password] key. The vault is
    left as it was. *)
Theorem get_entries_lists_without_passwords (s : State) :
  Forall has_site_and_username (entries (fst s)) ->
  exists ds,
    get_entries s = (Ok ds, s)
    /\ length ds = length (entries (fst s))
    /\ forall i e, entries (fst s) !! i = Some e ->
                   exists d, ds !! i = Some d /\ listed e d.
Proof.
  intros Hwf. destruct (listings_listed _ Hwf) as (ds & Hds & Hall).
  exists ds. split; [|split].
  - unfold get_entries. step. now rewrite Hds.
  - symmetry. exact (Forall2_length _ _ _ Hall).
  - intros i e Hi. exact (Forall2_lookup_l _ _ _ _ _ Hall Hi).
Qed.





(** What [search_entries] shows of the entry [e] found at index [i]. *)
Definition search_hit (i : nat) (e m : dict) : Prop :=
  m !! "index"%string = Some (VInt (Z.of_nat i))
  /\ m !! "site"%string = e !! "site"%string
  /\ m !! "username"%string = e !! "username"%string
  /\ m !! "created_at"%string = Some (created_at_or_unknown e).

Definition searchable (e : dict) : Prop :=
  has_site e /\ is_Some (e !! "username"%string).

Lemma search_match_hit i e :
  searchable e -> exists m, search_match i e = Ok m /\ search_hit i e m.
Proof.
  intros [[x Hx] [u Hu]]. unfold search_match, search_hit. rewrite Hx, Hu.
  eexists. split; [reflexivity|]. split; [|split; [|split]].
  - now rewrite lookup_insert_eq.
  - rewrite lookup_insert_ne by discriminate. now rewrite lookup_insert_eq.
  - do 2 (rewrite lookup_insert_ne by discriminate). now rewrite lookup_insert_eq.
  - do 3 (rewrite lookup_insert_ne by discriminate). now rewrite lookup_insert_eq.
Qed.



(** *** The salt, call after call *)

(** [n] calls of [_get_or_create_salt] in a row, and what they returned. *)
Fixpoint salt_calls (n : nat) : M (list bytes) :=
  match n with
  | O => ret []
  | S n' =>
      let! salt := _get_or_create_salt in
      let! salts := salt_calls n' in
      ret (salt :: salts)
  end.

Lemma salt_reused_after_first_call s salt s' :
  _get_or_create_salt s = (Ok salt, s') ->
  _get_or_create_salt s' = (Ok salt, s').
Proof.
  destruct s as [[vp sp es k] [fs dn ck en dr fu si]]. run.
  destruct (fs !! sp) as [salt0|] eqn:Hs; step.
  - destruct (decide _) as [|Hns]; [discriminate|]. rewrite Hs.
    intros [= <- <-]. step. rewrite Hs. step.
    destruct (decide _) as [|_]; [contradiction|]. now rewrite Hs.
  - destruct (decide _) as [|Hns]; step; [discriminate|].
    destruct fu as [[[|[|n]] [written|written]]|]; step; try discriminate;
      intros [= <- <-]; step; rewrite lookup_insert_eq; step;
      (destruct (decide _) as [|_]; [contradiction|]);
      now rewrite lookup_insert_eq.
Qed.

(** C8. Once the salt file exists, a call of [_get_or_create_salt] changes
    nothing, in memory or on disk: it returns the bytes of the file (or
    raises, when the file cannot be opened), and draws and writes no new
    salt; so any number of calls in a row return the same salt. *)
Theorem salt_is_never_regenerated (s : State) (salt : bytes) :
  files (snd s) !! salt_path (fst s) = Some salt ->
  _get_or_create_salt s
  = (if decide (salt_path (fst s) ∈ denied (snd s)) then Raise OSError else Ok salt, s)
  /\ (salt_path (fst s) ∉ denied (snd s) ->
      forall n, salt_calls n s = (Ok (repeat salt n), s)).
Proof.
  destruct s as [v w]. cbn [fst snd]. intros Hs. split.
  - destruct (decide _) as [Hd|Hnd].
    + exact (get_or_create_salt_denied v w salt Hs Hd).
    + exact (get_or_create_salt_existing v w salt Hs Hnd).
  - intros Hnd n. induction n as [|n IH]; [reflexivity|].
    cbn [salt_calls]. step.
    rewrite (get_or_create_salt_existing _ _ _ Hs Hnd). now rewrite IH.
Qed.

(** *** A save, completed or not *)

(** C5, as the code has it. A save comes to one of four ends: it returns
    [True] and the vault file is the token of the whole record set; or it
    returns [False] and every file is as it was, no key being held or the
    file not having been opened; or it returns [False] because the write
    failed, the file having been opened for writing, which cuts it, and the
    vault file is then a part of the token, none of it maybe; or the
    process was killed during it, before the file was opened, leaving
    every file as it was, or after, leaving of the vault file a part of the
    token again. *)
Theorem save_vault_outcomes (v : PasswordVault) (w : World) :
  let r := _save_vault (v, w) in
  let fs' := files (snd (snd r)) in
  let part written f := <[vault_path v := take written (token_of v w f)]> (files w) in
  (fst r = Ok true
   /\ exists f, fernet v = Some f
                /\ fs' = <[vault_path v := token_of v w f]> (files w))
  \/ (fst r = Ok false /\ fs' = files w)
  \/ (fst r = Ok false
      /\ exists f written,
           fernet v = Some f /\ fuse w = Some (1%nat, Fail written)
           /\ fs' = part written f)
  \/ (fst r = Killed
      /\ ((exists written, fuse w = Some (0%nat, Kill written)) /\ fs' = files w
          \/ exists f written,
               fernet v = Some f /\ fuse w = Some (1%nat, Kill written)
               /\ fs' = part written f)).
Proof.
  destruct v as [vp sp es [f|]], w as [fs dn ck en dr fu si]; cbv zeta; run.
  2: { right. left. auto. }
  destruct (decide _) as [|Hnd]; step; [right; left; auto|].
  destruct fu as [[[|[|n]] [written|written]]|]; step.
  - right. right. right. split; [reflexivity|]. left. split; [|reflexivity].
    now exists written.
  - right. left. auto.
  - right. right. right. split; [reflexivity|]. right. exists f, written.
    split; [reflexivity|]. split; [reflexivity|].
    unfold token_of. step. now rewrite insert_insert_eq.
  - right. right. left. split; [reflexivity|]. exists f, written.
    split; [reflexivity|]. split; [reflexivity|].
    unfold token_of. step. now rewrite insert_insert_eq.
  - left. split; [reflexivity|]. exists f. split; [reflexivity|].
    unfold token_of. step. now rewrite insert_insert_eq.
  - left. split; [reflexivity|]. exists f. split; [reflexivity|].
    unfold token_of. step. now rewrite insert_insert_eq.
  - left. split; [reflexivity|]. exists f. split; [reflexivity|].
    unfold token_of. step. now rewrite insert_insert_eq.
Qed.

(** The process is killed at its second change to the file system, the
    write: the vault file has been cut, and holds the part written of the
    token. *)
Lemma save_vault_killed_midway v w f written :
  fernet v = Some f -> vault_path v ∉ denied w ->
  fuse w = Some (1%nat, Kill written) ->
  _save_vault (v, w)
  = (Killed,
     (v, set_fuse (Some (0%nat, Kill written))
           (set_files (<[vault_path v := take written (token_of v w f)]> (files w))
                      (set_drawn (drawn w + 16) w)))).
Proof.
  destruct v as [vp sp es k], w as [fs dn ck en dr fu si].
  cbn [fernet vault_path denied fuse]. intros -> Hnd ->. run.
  destruct (decide _) as [|_]; [contradiction|]. step.
  unfold token_of. step. now rewrite insert_insert_eq.
Qed.

(** The write fails, the disk being full say, after [written] bytes: the
    save returns [False], and the vault file is the part written of the
    token. *)
Lemma save_vault_write_fails v w f written :
  fernet v = Some f -> vault_path v ∉ denied w ->
  fuse w = Some (1%nat, Fail written) ->
  _save_vault (v, w)
  = (Ok false,
     (v, set_fuse None
           (set_files (<[vault_path v := take written (token_of v w f)]> (files w))
                      (set_drawn (drawn w + 16) w)))).
Proof.
  destruct v as [vp sp es k], w as [fs dn ck en dr fu si].
  cbn [fernet vault_path denied fuse]. intros -> Hnd ->. run.
  destruct (decide _) as [|_]; [contradiction|]. step.
  unfold token_of. step. now rewrite insert_insert_eq.
Qed.

(** *** A failed unlock *)

(** C3, at the failing input. A vault object just built is bound to a
    vault file that does not decrypt under the key derived from [P] (another
    passphrase, or a damaged file). [unlock_vault] returns [False], yet
    leaves that key in [self.fernet]; so [add_entry], which refuses to work
    without a key, now works, and replaces the vault file by a token under
    the key that was never verified. *)
Theorem failed_unlock_keeps_the_key (P path : string) (w : World)
    (salt token : bytes) (site username password : string) :
  let v := __init__ path in
  let f := MkFernet (_derive_key P salt) in
  let v2 := MkVault path (salt_path v)
                    [new_entry site username password (isoformat (clock w))]
                    (Some f) in
  files w !! salt_path v = Some salt ->
  files w !! path = Some token ->
  salt_path v ∉ denied w -> path ∉ denied w -> fuse w = None ->
  fernet_decrypt f token = None ->
  unlock_vault P (v, w) = (Ok false, (with_fernet (Some f) v, w))
  /\ add_entry site username password (with_fernet (Some f) v, w)
     = (Ok true, (v2, after_save v2 w f)).
Proof.
  cbv zeta. intros Hs Hv Hns Hnv Hfu Hd. split.
  - now apply (unlock_vault_undecryptable P (__init__ path) w salt token).
  - erewrite add_entry_unlocked; [|reflexivity|reflexivity].
    now apply save_vault_ok.
Qed.

(** *** The wrong key *)

(** C2, as the code has it. After a session under [P], unlocking with a
    passphrase [P'] whose key, derived from the stored salt, is not the key
    of [P] returns [False], loads no record set and leaves the world as it
    is; this for a cipher that rejects tokens made under another key. *)
Theorem unlock_rejects_other_key `{!RuntimeLaws RT} `{!FernetAuthentic RT}
    (P P' : string) (s : State) (v0 : PasswordVault) (w' : World) (salt : bytes) :
  session P s ->
  vault_path v0 = vault_path (fst s) -> salt_path v0 = salt_path (fst s) ->
  files w' = files (snd s) ->
  files (snd s) !! salt_path (fst s) = Some salt ->
  _derive_key P' salt <> _derive_key P salt ->
  let r := unlock_vault P' (v0, w') in
  fst r = Ok false /\ entries (fst (snd r)) = entries v0 /\ snd (snd r) = w'.
Proof.
  intros Hsess Hvp Hsp Hfs Hsalt Hkey. cbv zeta.
  destruct (session_sealed P s Hsess) as (Hne & salt' & t & iv & Hs & Hf & Hv).
  rewrite Hsalt in Hs. injection Hs as <-.
  rewrite <- Hvp, <- Hsp, <- Hfs in *.
  destruct (decide (salt_path v0 ∈ denied w')) as [Hds|Hns];
    [|destruct (decide (vault_path v0 ∈ denied w')) as [Hdv|Hnv]].
  - rewrite (unlock_vault_salt_denied P' v0 w' _ _ Hsalt Hv Hds). auto.
  - rewrite (unlock_vault_file_denied P' v0 w' _ _ Hsalt Hv Hns Hdv). auto.
  - rewrite (unlock_vault_undecryptable P' v0 w' _ _ Hsalt Hv Hns Hnv); [auto|].
    apply fernet_rejects. congruence.
Qed.

(** Passphrases that derive the same keys unlock alike. *)
Lemma unlock_vault_same_keys P P' s :
  (forall salt, _derive_key P' salt = _derive_key P salt) ->
  unlock_vault P' s = unlock_vault P s.
Proof.
  intros Hkeys. destruct s as [v w]. unfold unlock_vault. step.
  destruct (files w !! vault_path v); step; [|reflexivity].
  destruct (_get_or_create_salt (v, w)) as [[salt| |] s1]; [|reflexivity..].
  now rewrite Hkeys.
Qed.

(** Under the key derivation of the standards, a passphrase shorter than
    64 bytes and the same passphrase followed by [chr(0)] derive the same
    key, whatever the salt: HMAC pads the shorter with the zero byte the
    longer ends with. *)
Lemma derive_key_nul `{!Rfc8018 RT} password salt :
  (String.length password < 64)%nat ->
  _derive_key (password +:+ KDFFacts.nul) salt = _derive_key password salt.
Proof.
  intros Hlt. unfold _derive_key. rewrite !pbkdf2_derive_rfc.
  rewrite KDFFacts.str_encode_app.
  change (str_encode KDFFacts.nul) with [x00].
  rewrite KDFFacts.pbkdf2_nul; [reflexivity|].
  now rewrite KDFFacts.str_encode_length.
Qed.

(** So the longer passphrase unlocks what the shorter unlocks. *)
Lemma nul_suffix_unlocks `{!Rfc8018 RT} P s :
  (String.length P < 64)%nat ->
  unlock_vault (P +:+ KDFFacts.nul) s = unlock_vault P s.
Proof.
  intros Hlen. apply unlock_vault_same_keys. intros salt.
  now apply derive_key_nul.
Qed.



Lemma initialized_denied P v w : denied (snd (initialized P v w)) = denied w.
Proof.
  unfold initialized, after_save, with_salt. cbn [snd denied set_files set_drawn].
  now destruct (files w !! salt_path v).
Qed.

Lemma initialized_vault_file P v w :
  let f := MkFernet (_derive_key P (salt_of v w)) in
  let v1 := MkVault (vault_path v) (salt_path v) [] (Some f) in
  files (snd (initialized P v w)) !! vault_path v
  = Some (token_of v1 (with_salt v w) f).
Proof.
  cbv zeta. unfold initialized, after_save. cbn [snd files set_files set_drawn vault_path].
  apply lookup_insert_eq.
Qed.

(** *** Validation *)

(** The first line typed that is not blank, stripped, and the lines after
    it. *)
Fixpoint first_filled (lines : list string) : option (string * list string) :=
  match lines with
  | [] => None
  | line :: rest =>
      if String.eqb (str_strip line) "" then first_filled rest
      else Some (str_strip line, rest)
  end.


(** The loop never runs short of fuel: it is given one round more than
    there are lines. *)
Lemma get_user_input_loop_required fuel v fs dn ck en dr fu si :
  (length si < fuel)%nat ->
  Cli.get_user_input_loop fuel true (v, MkWorld fs dn ck en dr fu si)
  = match first_filled si with
    | Some (value, rest) => (Ok value, (v, MkWorld fs dn ck en dr fu rest))
    | None => (Raise EOFError, (v, MkWorld fs dn ck en dr fu []))
    end.
Proof.
  revert fuel. induction si as [|line si IH]; intros [|fuel] Hlt;
    try (cbn in Hlt; lia); cbn [Cli.get_user_input_loop first_filled]; step.
  - reflexivity.
  - destruct (String.eqb (str_strip line) "") eqn:E; step; [|reflexivity].
    apply IH. cbn in Hlt. lia.
Qed.

Lemma get_user_input_required v w :
  Cli.get_user_input true (v, w)
  = match first_filled (stdin w) with
    | Some (value, rest) => (Ok value, (v, set_stdin rest w))
    | None => (Raise EOFError, (v, set_stdin [] w))
    end.
Proof.
  destruct w as [fs dn ck en dr fu si]. unfold Cli.get_user_input. step.
  rewrite get_user_input_loop_required by lia. reflexivity.
Qed.



(** C10. Without a key in memory, [add_entry] returns [False] and changes
    neither the record set nor any file; [_save_vault], which it would call,
    has the same guard. *)
Theorem add_entry_locked_is_noop (s : State) (site username password : string) :
  fernet (fst s) = None ->
  add_entry site username password s = (Ok false, s)
  /\ _save_vault s = (Ok false, s).
Proof.
  destruct s as [v w]. cbn [fst]. intros Hk. run. rewrite Hk. auto.
Qed.

End WithRuntime.
End Props.

(** ** The specification's scenario, on the small runtime *)

Module Scenario.
Import Vault Props.

#[local] Existing Instances Toy.runtime Toy.laws Toy.authentic.

(** A vault object just built, and a world with no file yet. *)
Definition vault0 : PasswordVault := __init__ "data/vault.enc".

Definition world0 : World :=
  MkWorld ∅ ∅ 1700000000000000 (fun _ => x2a) 0 None [].

Lemma vault0_paths : vault_path vault0 <> salt_path vault0.
Proof. discriminate. Qed.

Lemma world0_open path : path ∉ denied world0.
Proof. set_solver. Qed.

(** The vault is initialised with "correct-horse". *)
Definition created : State := initialized "correct-horse" vault0 world0.

Lemma created_ok : initialize_vault "correct-horse" (vault0, world0) = (Ok true, created).
Proof. apply initialize_vault_ok; [set_solver|set_solver|reflexivity]. Qed.

Lemma created_session : session "correct-horse" created.
Proof.
  apply (session_initialize _ vault0 world0);
    [discriminate|set_solver|reflexivity|exact created_ok].
Qed.

(** Then the entry of github.com is added. *)
Definition github : dict :=
  new_entry "github.com" "alice" "p@ss1" (isoformat (clock (snd created))).

Definition added : State :=
  let v := with_entries [github] (fst created) in
  (v, after_save v (snd created)
                 (MkFernet (_derive_key "correct-horse" (salt_of vault0 world0)))).

Lemma added_ok : add_entry "github.com" "alice" "p@ss1" created = (Ok true, added).
Proof.
  unfold created, initialized. cbv zeta.
  erewrite add_entry_unlocked; [|reflexivity|reflexivity].
  apply save_vault_ok; [reflexivity|set_solver|reflexivity].
Qed.

Lemma added_session : session "correct-horse" added.
Proof. exact (session_add _ _ _ _ _ _ created_session added_ok). Qed.

(** The process is restarted, and the vault unlocked again. *)
Definition restarted : State := snd (unlock_vault "correct-horse" (vault0, snd added)).

(** What a returned dictionary holds under the keys of an entry and under
    [index]. *)
Definition fields (d : dict) : list (option value) :=
  map (fun k => d !! k) ["index"; "site"; "username"; "created_at"; "password"]%string.

Definition shown (r : result (list dict)) : option (list (list (option value))) :=
  match r with
  | Ok ds => Some (map fields ds)
  | _ => None
  end.

(** The example of the specification, run: the vault is created, the entry
    added, the vault unlocked in a new process, where the entry is listed
    without its password and found whatever the case; "wrong-pass" does not
    unlock. *)
Example scenario_returns :
  map fst [initialize_vault "correct-horse" (vault0, world0);
           add_entry "github.com" "alice" "p@ss1" created;
           unlock_vault "correct-horse" (vault0, snd added);
           entry_exists "GITHUB.COM" restarted;
           unlock_vault "wrong-pass" (vault0, snd added)]
  = [Ok true; Ok true; Ok true; Ok true; Ok false].
Proof. vm_compute. reflexivity. Qed.

Example scenario_lists :
  shown (fst (get_entries restarted))
  = Some [[None; Some (VStr "github.com"); Some (VStr "alice");
           Some (VStr "2023-11-14T22:13:20"); None]]
  /\ shown (fst (search_entries "Hub" restarted))
     = Some [[Some (VInt 0); Some (VStr "github.com"); Some (VStr "alice");
              Some (VStr "2023-11-14T22:13:20"); None]]
  /\ fst (get_password "github.com" restarted) = Ok (Some (VStr "p@ss1")).
Proof. vm_compute. auto. Qed.

(** C1 at the scenario: the process is restarted and the vault unlocked. *)
Lemma unlock_reproduces_saved_records_witness :
  unlock_vault "correct-horse" (vault0, snd added)
  = (Ok true, (MkVault "data/vault.enc" "data/salt.key" [github]
                       (fernet (fst added)), snd added)).
Proof.
  apply (unlock_reproduces_saved_records "correct-horse" added vault0 (snd added)
           added_session); [reflexivity|reflexivity|reflexivity|set_solver|set_solver].
Defined.

(** C2 at the scenario: "wrong-pass" after a session under
    "correct-horse". *)
Lemma unlock_rejects_other_key_witness :
  let r := unlock_vault "wrong-pass" (vault0, snd added) in
  fst r = Ok false /\ entries (fst (snd r)) = [] /\ snd (snd r) = snd added.
Proof.
  apply (unlock_rejects_other_key "correct-horse" "wrong-pass" added vault0
           (snd added) (salt_of vault0 world0) added_session);
    [reflexivity|reflexivity|reflexivity|reflexivity|].
  vm_compute. discriminate.
Defined.

(** C2 refuted as stated, with the key derivation of the standards:
    "correct-horse" followed by [chr(0)] is another passphrase, one byte
    longer, and unlocks the vault that "correct-horse" created. *)
Lemma nul_padded_passphrase_unlocks :
  let created := initialized (RT := Rfc.runtime) "correct-horse" vault0 world0 in
  initialize_vault (RT := Rfc.runtime) "correct-horse" (vault0, world0)
  = (Ok true, created)
  /\ ("correct-horse" +:+ KDFFacts.nul)%string <> "correct-horse"%string
  /\ unlock_vault (RT := Rfc.runtime) ("correct-horse" +:+ KDFFacts.nul)
                  (vault0, snd created)
     = (Ok true, created).
Proof.
  cbv zeta.
  pose proof (@initialize_vault_ok Rfc.runtime "correct-horse" vault0 world0
                (world0_open _) (world0_open _) eq_refl) as Hinit.
  split; [exact Hinit|]. split; [discriminate|].
  rewrite (@nul_suffix_unlocks Rfc.runtime Rfc.rfc8018) by (cbn; lia).
  pose proof (@session_sealed Rfc.runtime Rfc.laws "correct-horse" _
                (@session_initialize Rfc.runtime "correct-horse" vault0 world0 _
                   vault0_paths (world0_open _) eq_refl Hinit)) as Hsealed.
  apply (@unlock_vault_sealed Rfc.runtime Rfc.laws
           "correct-horse" _ _ vault0 _ Hsealed);
    [reflexivity|reflexivity|reflexivity| |];
    rewrite (@initialized_denied Rfc.runtime); apply world0_open.
Qed.

(** The process is killed during the next save, between opening the vault
    file and writing it. *)
Definition armed : World := set_fuse (Some (1%nat, Kill 0)) (snd added).

Definition cut : World :=
  set_fuse (Some (0%nat, Kill 0))
    (set_files (<["data/vault.enc"%string := []]> (files armed))
               (set_drawn (drawn armed + 16) armed)).

Lemma token_nonempty f t iv data : Toy.encrypt f t iv data <> [].
Proof.
  intros H. apply (f_equal (@length byte)) in H. revert H.
  unfold Toy.encrypt, Toy.frame, Toy.unary. rewrite !length_app. cbn [length]. lia.
Qed.

(** C5 refuted as stated: the save is interrupted, and the vault file is
    neither the last snapshot nor the new one (the token the save was to
    write) but an empty file, which the right passphrase no longer
    unlocks. *)
Lemma interrupted_save_leaves_empty_vault :
  _save_vault (fst added, armed) = (Killed, (fst added, cut))
  /\ files cut !! "data/vault.enc"%string = Some []
  /\ files (snd added) !! "data/vault.enc"%string <> Some []
  /\ fst (unlock_vault "correct-horse" (vault0, set_fuse None cut)) = Ok false
  /\ token_of (fst added) armed
              (MkFernet (_derive_key "correct-horse" (salt_of vault0 world0)))
     <> [].
Proof.
  split; [|split; [|split; [|split; [|apply token_nonempty]]]].
  - erewrite save_vault_killed_midway; [|reflexivity|set_solver|reflexivity].
    now rewrite take_0.
  - reflexivity.
  - cbn [files added after_save snd set_files]. rewrite lookup_insert_eq.
    intros H. injection H as H. exact (token_nonempty _ _ _ _ H).
  - erewrite (unlock_vault_undecryptable "correct-horse" vault0 (set_fuse None cut)
                (salt_of vault0 world0) []);
      [reflexivity|reflexivity|reflexivity|set_solver|set_solver|reflexivity].
Qed.

(** The disk is full at the next save: the write fails after three bytes
    of the token. The save returns [False], and the vault file is neither
    the last snapshot nor the new one but those three bytes, which the
    right passphrase no longer unlocks. *)
Definition full : World := set_fuse (Some (1%nat, Fail 3)) (snd added).

Lemma failed_write_leaves_cut_vault :
  let r := _save_vault (fst added, full) in
  let left := files (snd (snd r)) !! "data/vault.enc"%string in
  fst r = Ok false
  /\ option_map (@length byte) left = Some 3%nat
  /\ left <> files (snd added) !! "data/vault.enc"%string
  /\ fst (unlock_vault "correct-horse" (vault0, snd (snd r))) = Ok false.
Proof.
  cbv zeta.
  erewrite save_vault_write_fails; [|reflexivity|set_solver|reflexivity].
  vm_compute. repeat split; discriminate.
Qed.

(** C3 at the scenario: over the empty file an interrupted save has left,
    [unlock_vault] fails, the key stays, and [add_entry] then writes. *)
Lemma failed_unlock_keeps_the_key_witness :
  let w := set_fuse None cut in
  let f := MkFernet (_derive_key "correct-horse" (salt_of vault0 world0)) in
  let v2 := MkVault "data/vault.enc" "data/salt.key"
                    [new_entry "example.com" "bob" "hunter2" (isoformat (clock w))]
                    (Some f) in
  unlock_vault "correct-horse" (vault0, w) = (Ok false, (with_fernet (Some f) vault0, w))
  /\ add_entry "example.com" "bob" "hunter2" (with_fernet (Some f) vault0, w)
     = (Ok true, (v2, after_save v2 w f)).
Proof.
  apply (failed_unlock_keeps_the_key "correct-horse" "data/vault.enc"
           (set_fuse None cut) (salt_of vault0 world0) []);
    [reflexivity|reflexivity|set_solver|set_solver|reflexivity|reflexivity].
Defined.

Lemma github_has_site : has_site github.
Proof. now exists "github.com"%string. Qed.

Lemma github_same_site : same_site "GitHub.com" github.
Proof. exists "github.com"%string. split; reflexivity. Qed.


(** C6 at the scenario. *)
Lemma get_entries_lists_without_passwords_witness :
  exists ds,
    get_entries added = (Ok ds, added)
    /\ length ds = 1%nat
    /\ forall i e, [github] !! i = Some e -> exists d, ds !! i = Some d /\ listed e d.
Proof.
  apply (get_entries_lists_without_passwords added).
  constructor; [|constructor]. split; eexists; reflexivity.
Defined.


(** C8 at the scenario: the salt file of the vault just created. *)
Lemma salt_is_never_regenerated_witness :
  _get_or_create_salt created
  = (if decide ("data/salt.key"%string ∈ denied (snd created))
     then Raise OSError else Ok (salt_of vault0 world0), created)
  /\ ("data/salt.key"%string ∉ denied (snd created) ->
      forall n, salt_calls n created = (Ok (repeat (salt_of vault0 world0) n), created)).
Proof.
  apply (salt_is_never_regenerated created (salt_of vault0 world0)). reflexivity.
Defined.

(** The user types a blank line, then a site. *)
Definition typing : World := set_stdin ["   "; " github.com "]%string (snd created).


Example get_user_input_skips_blank_lines :
  Cli.get_user_input true (fst created, typing)
  = (Ok "github.com"%string, (fst created, set_stdin [] typing)).
Proof. rewrite get_user_input_required. reflexivity. Qed.


(** C10 at the scenario: the vault object before any unlock. *)
Lemma add_entry_locked_is_noop_witness :
  add_entry "github.com" "alice" "p@ss1" (vault0, world0) = (Ok false, (vault0, world0))
  /\ _save_vault (vault0, world0) = (Ok false, (vault0, world0)).
Proof.
  apply (add_entry_locked_is_noop (vault0, world0) "github.com" "alice" "p@ss1").
  reflexivity.
Defined.

End Scenario.

(** ** More of the vault: lookups, failures and what they leave behind *)

Module More.
Import Vault Props.

Ltac steps :=
  cbn [OS.path_exists OS.read_file OS.open_wb OS.write OS.write_file OS.urandom
       OS.time_time OS.now_isoformat OS.tick OS.input encrypt decrypt loads
       bind ret raise try_except lift get_self get_world set_self set_world
       fst snd files denied clock entropy drawn fuse stdin
       set_files set_drawn set_fuse set_stdin
       vault_path salt_path entries fernet with_entries with_fernet negb].

Section WithRuntime.
Context `{RT : Runtime}.

(** *** The lookups on a list of entries *)

Lemma same_site_lower site site' e :
  str_lower site' = str_lower site -> same_site site' e <-> same_site site e.
Proof.
  intros Hl. unfold same_site. split; intros (x & Hx & Hs); exists x; split; congruence.
Qed.

Lemma new_entry_has_site site username password created_at :
  has_site (new_entry site username password created_at).
Proof. now exists site. Qed.

Lemma new_entry_same_site site username password created_at :
  same_site site (new_entry site username password created_at).
Proof. exists site. split; reflexivity. Qed.

Lemma new_entry_password site username password created_at :
  new_entry site username password created_at !! "password"%string
  = Some (VStr password).
Proof. reflexivity. Qed.

Lemma site_lower_not_same site e x :
  e !! "site"%string = Some (VStr x) -> ~ same_site site e ->
  String.eqb (str_lower x) (str_lower site) = false.
Proof.
  intros Hx Hno. apply String.eqb_neq. intros Heq. apply Hno. now exists x.
Qed.

Lemma site_lower_same site e :
  same_site site e ->
  exists x, e !! "site"%string = Some (VStr x)
            /\ String.eqb (str_lower x) (str_lower site) = true.
Proof. intros (x & Hx & Hl). exists x. split; [assumption|]. now apply String.eqb_eq. Qed.

(** The three lookups go through the entries up to the first one of the
    site, and no further. *)
Lemma lookups_at_first_match es site k e :
  es !! k = Some e -> same_site site e ->
  (forall j e', (j < k)%nat -> es !! j = Some e' -> has_site e' /\ ~ same_site site e') ->
  exists_in es site = Ok true
  /\ password_in es site
     = match e !! "password"%string with
       | Some p => Ok (Some p)
       | None => Raise KeyError
       end.
Proof.
  revert k. induction es as [|e0 es IH]; intros [|k] Hk Hsame Hbefore;
    try discriminate.
  - injection Hk as ->. destruct (site_lower_same _ _ Hsame) as (x & Hx & Heq).
    cbn [exists_in password_in]. unfold site_lower. rewrite Hx, Heq. auto.
  - destruct (Hbefore 0%nat e0 ltac:(lia) eq_refl) as [[x Hx] Hno].
    cbn [exists_in password_in]. unfold site_lower. rewrite Hx.
    rewrite (site_lower_not_same _ _ _ Hx Hno).
    apply (IH k Hk Hsame). intros j e' Hj Hl. apply (Hbefore (S j)); [lia|exact Hl].
Qed.

Lemma lookups_without_match es site :
  Forall (fun e => has_site e /\ ~ same_site site e) es ->
  exists_in es site = Ok false /\ password_in es site = Ok None
  /\ forall i, find_from i es site = Ok None.
Proof.
  induction 1 as [|e es [[x Hx] Hno] _ (IH1 & IH2 & IH3)]; [auto|].
  cbn [exists_in password_in find_from]. unfold site_lower. rewrite Hx.
  rewrite (site_lower_not_same _ _ _ Hx Hno). auto.
Qed.

(** An entry that is not of the site may be replaced by another that is
    not, or added at the end, and the lookups for the site do not see it. *)
Lemma lookups_skip_replaced es site k e' :
  Forall has_site es -> has_site e' -> ~ same_site site e' ->
  (forall e, es !! k = Some e -> ~ same_site site e) ->
  exists_in (<[k := e']> es) site = exists_in es site
  /\ password_in (<[k := e']> es) site = password_in es site.
Proof.
  intros Hwf [x' Hx'] Hno'. revert k.
  induction Hwf as [|e es [x Hx] _ IH]; intros k Hk; [auto|].
  destruct k as [|k]; cbn [exists_in password_in]; unfold site_lower.
  - change (<[0%nat := e']> (e :: es)) with (e' :: es).
    cbn [exists_in password_in]. unfold site_lower. rewrite Hx, Hx'.
    rewrite (site_lower_not_same _ _ _ Hx' Hno').
    now rewrite (site_lower_not_same _ _ _ Hx (Hk e eq_refl)).
  - change (<[S k := e']> (e :: es)) with (e :: <[k := e']> es).
    cbn [exists_in password_in]. unfold site_lower. rewrite Hx.
    destruct (IH k) as [-> ->]; [|auto]. intros e0 He0. now apply Hk.
Qed.

Lemma lookups_skip_appended es site e' :
  Forall has_site es -> has_site e' -> ~ same_site site e' ->
  exists_in (es ++ [e']) site = exists_in es site
  /\ password_in (es ++ [e']) site = password_in es site.
Proof.
  intros Hwf [x' Hx'] Hno'. induction Hwf as [|e es [x Hx] _ [IH1 IH2]].
  - cbn [app exists_in password_in]. unfold site_lower. rewrite Hx'.
    now rewrite (site_lower_not_same _ _ _ Hx' Hno').
  - cbn [app exists_in password_in]. unfold site_lower. rewrite Hx, IH1, IH2. auto.
Qed.

(** *** After [add_entry] *)

Lemma add_entry_entries v w f site username password idx :
  fernet v = Some f -> find_from 0 (entries v) site = Ok idx ->
  entries (fst (snd (add_entry site username password (v, w))))
  = place idx (new_entry site username password (isoformat (clock w))) (entries v).
Proof.
  intros Hf Hfind. rewrite (add_entry_unlocked _ _ _ _ _ _ _ Hf Hfind).
  now rewrite save_vault_keeps_self.
Qed.

(** Where the new entry is after [add_entry]: at an index before which no
    entry is of the site. *)
Lemma add_entry_first_match v w f site username password :
  fernet v = Some f -> Forall has_site (entries v) ->
  let entry := new_entry site username password (isoformat (clock w)) in
  let es' := entries (fst (snd (add_entry site username password (v, w)))) in
  Forall has_site es'
  /\ exists k, es' !! k = Some entry
       /\ (forall j e', (j < k)%nat -> es' !! j = Some e' ->
                        has_site e' /\ ~ same_site site e')
       /\ (es' = <[k := entry]> (entries v)
           /\ (exists e, entries v !! k = Some e /\ same_site site e)
           \/ es' = entries v ++ [entry] /\ k = length (entries v)
              /\ Forall (fun e => ~ same_site site e) (entries v)).
Proof.
  intros Hf Hwf. cbv zeta.
  set (entry := new_entry site username password (isoformat (clock w))).
  destruct (find_from_first 0 (entries v) site Hwf)
    as [(k & e & Hfind & Hk & Hsame & Hfirst)|[Hfind Hnone]];
    rewrite (add_entry_entries _ _ _ _ _ _ _ Hf Hfind); cbn [place Nat.add].
  - split; [apply Forall_insert; [assumption|apply new_entry_has_site]|].
    exists k. split; [|split].
    + apply list_lookup_insert_eq. now apply lookup_lt_Some in Hk.
    + intros j e' Hj Hl. rewrite list_lookup_insert_ne in Hl by lia.
      split; [exact (proj1 (Forall_lookup _ _) Hwf j e' Hl)|now apply (Hfirst j)].
    + left. split; [reflexivity|]. now exists e.
  - split; [apply Forall_app; split; [assumption|]; constructor;
            [apply new_entry_has_site|constructor]|].
    exists (length (entries v)). split; [|split].
    + now rewrite lookup_app_r, Nat.sub_diag by lia.
    + intros j e' Hj Hl. rewrite lookup_app_l in Hl by lia.
      split; [exact (proj1 (Forall_lookup _ _) Hwf j e' Hl)
             |exact (proj1 (Forall_lookup _ _) Hnone j e' Hl)].
    + right. auto.
Qed.

(** X1. After [add_entry] on an unlocked vault, [entry_exists] answers
    [True] for the site added, in whatever case it is asked, be the save
    that followed a success or not. *)
Theorem add_entry_then_entry_exists (v : PasswordVault) (w : World) (f : Fernet)
    (site site' username password : string) :
  fernet v = Some f -> Forall has_site (entries v) ->
  str_lower site' = str_lower site ->
  let s' := snd (add_entry site username password (v, w)) in
  entry_exists site' s' = (Ok true, s').
Proof.
  intros Hf Hwf Hl. cbv zeta.
  destruct (add_entry_first_match v w f site username password Hf Hwf)
    as (_ & k & Hk & Hbefore & _).
  unfold entry_exists. steps.
  destruct (lookups_at_first_match _ site' k _ Hk) as [-> _]; [| |reflexivity].
  - apply (same_site_lower site site'); [assumption|apply new_entry_same_site].
  - intros j e' Hj He'. destruct (Hbefore j e' Hj He') as [Hs Hno].
    split; [assumption|]. now rewrite (same_site_lower site site').
Qed.

(** X2. After [add_entry] on an unlocked vault, [get_password] returns the
    password just given for the site, in whatever case the site is asked:
    the entry written is the first of its site. *)
Theorem add_entry_then_get_password (v : PasswordVault) (w : World) (f : Fernet)
    (site site' username password : string) :
  fernet v = Some f -> Forall has_site (entries v) ->
  str_lower site' = str_lower site ->
  let s' := snd (add_entry site username password (v, w)) in
  get_password site' s' = (Ok (Some (VStr password)), s').
Proof.
  intros Hf Hwf Hl. cbv zeta.
  destruct (add_entry_first_match v w f site username password Hf Hwf)
    as (_ & k & Hk & Hbefore & _).
  unfold get_password. steps.
  destruct (lookups_at_first_match _ site' k _ Hk) as [_ ->]; [| |reflexivity].
  - apply (same_site_lower site site'); [assumption|apply new_entry_same_site].
  - intros j e' Hj He'. destruct (Hbefore j e' Hj He') as [Hs Hno].
    split; [assumption|]. now rewrite (same_site_lower site site').
Qed.

(** X3. [add_entry] for one site changes what [entry_exists] and
    [get_password] answer for no other site. *)
Theorem add_entry_keeps_other_sites (v : PasswordVault) (w : World) (f : Fernet)
    (site other username password : string) :
  fernet v = Some f -> Forall has_site (entries v) ->
  str_lower other <> str_lower site ->
  let s' := snd (add_entry site username password (v, w)) in
  entry_exists other s' = (fst (entry_exists other (v, w)), s')
  /\ get_password other s' = (fst (get_password other (v, w)), s').
Proof.
  intros Hf Hwf Hl. cbv zeta.
  assert (forall e, same_site site e -> ~ same_site other e) as Hother.
  { intros e (x & Hx & Hs) (y & Hy & Ho). congruence. }
  destruct (add_entry_first_match v w f site username password Hf Hwf)
    as (_ & k & _ & _ & [(Hes' & e & Hk & Hsame)|(Hes' & _ & _)]);
    unfold entry_exists, get_password; steps; rewrite Hes'.
  - destruct (lookups_skip_replaced (entries v) other k
                (new_entry site username password (isoformat (clock w))) Hwf)
      as [-> ->]; [apply new_entry_has_site| | |auto].
    + apply Hother, new_entry_same_site.
    + intros e0 He0. rewrite Hk in He0. injection He0 as <-. now apply Hother.
  - destruct (lookups_skip_appended (entries v) other
                (new_entry site username password (isoformat (clock w))) Hwf)
      as [-> ->]; [apply new_entry_has_site| |auto].
    apply Hother, new_entry_same_site.
Qed.

(** No two entries are of the same site, case put aside. *)
Definition unique_sites (es : list dict) : Prop :=
  forall i j ei ej site,
    es !! i = Some ei -> es !! j = Some ej ->
    same_site site ei -> same_site site ej -> i = j.

Lemma same_site_trans site site' e :
  same_site site e -> same_site site' e -> str_lower site' = str_lower site.
Proof. intros (x & Hx & Hs) (y & Hy & Hs'). congruence. Qed.

(** X4. [add_entry] keeps the sites of the record set unique: when no two
    entries had the same site up to case, none have afterwards, and every
    entry still has a site. *)
Theorem add_entry_keeps_sites_unique (v : PasswordVault) (w : World) (f : Fernet)
    (site username password : string) :
  fernet v = Some f -> Forall has_site (entries v) -> unique_sites (entries v) ->
  let es' := entries (fst (snd (add_entry site username password (v, w)))) in
  unique_sites es' /\ Forall has_site es'.
Proof.
  intros Hf Hwf Huniq. cbv zeta.
  destruct (add_entry_first_match v w f site username password Hf Hwf)
    as (Hwf' & k & _ & _ & Hcases).
  split; [|assumption].
  set (entry := new_entry site username password (isoformat (clock w))) in *.
  assert (forall s e, same_site s entry -> same_site s e -> same_site site e) as Hmove.
  { intros s e Hs He. apply (same_site_lower s site); [|assumption].
    exact (same_site_trans s site entry Hs (new_entry_same_site _ _ _ _)). }
  destruct Hcases as [(-> & e & Hk & Hsame)|(-> & -> & Hnone)];
    intros i j ei ej s Hi Hj Hsi Hsj.
  - apply list_lookup_insert_Some in Hi as [(Hik & Hei & _)|[Hik Hi]];
      apply list_lookup_insert_Some in Hj as [(Hjk & Hej & _)|[Hjk Hj]].
    + congruence.
    + exfalso. apply Hjk. apply (Huniq k j e ej site Hk Hj Hsame).
      apply (Hmove s); [now rewrite Hei|assumption].
    + exfalso. apply Hik. apply (Huniq k i e ei site Hk Hi Hsame).
      apply (Hmove s); [now rewrite Hej|assumption].
    + exact (Huniq i j ei ej s Hi Hj Hsi Hsj).
  - apply lookup_snoc_Some in Hi as [[Hilt Hi]|[Hil Hei]];
      apply lookup_snoc_Some in Hj as [[Hjlt Hj]|[Hjl Hej]].
    + exact (Huniq i j ei ej s Hi Hj Hsi Hsj).
    + exfalso. apply (proj1 (Forall_lookup _ _) Hnone i ei Hi).
      apply (Hmove s); [now rewrite Hej|assumption].
    + exfalso. apply (proj1 (Forall_lookup _ _) Hnone j ej Hj).
      apply (Hmove s); [now rewrite Hei|assumption].
    + congruence.
Qed.

Definition has_password (e : dict) : Prop := is_Some (e !! "password"%string).

(** X5. On entries that all have a site and a password, the three lookups
    agree: either [entry_exists] is [True], [_find_entry_index] gives the
    index of the first entry of the site and [get_password] that entry's
    password; or [entry_exists] is [False] and the two others give
    [None]. None of them changes the vault. *)
Theorem lookups_agree (s : State) (site : string) :
  Forall has_site (entries (fst s)) -> Forall has_password (entries (fst s)) ->
  (exists k e p,
      entries (fst s) !! k = Some e /\ same_site site e
      /\ e !! "password"%string = Some p
      /\ entry_exists site s = (Ok true, s)
      /\ _find_entry_index site s = (Ok (Some k), s)
      /\ get_password site s = (Ok (Some p), s))
  \/ (Forall (fun e => ~ same_site site e) (entries (fst s))
      /\ entry_exists site s = (Ok false, s)
      /\ _find_entry_index site s = (Ok None, s)
      /\ get_password site s = (Ok None, s)).
Proof.
  destruct s as [v w]. cbn [fst]. intros Hwf Hpw.
  unfold entry_exists, _find_entry_index, get_password. steps.
  destruct (find_from_first 0 (entries v) site Hwf)
    as [(k & e & Hfind & Hk & Hsame & Hfirst)|[Hfind Hnone]].
  - left. destruct (proj1 (Forall_lookup _ _) Hpw k e Hk) as [p Hp].
    exists k, e, p.
    destruct (lookups_at_first_match (entries v) site k e Hk Hsame) as [-> ->].
    { intros j e' Hj He'. split; [|now apply (Hfirst j)].
      exact (proj1 (Forall_lookup _ _) Hwf j e' He'). }
    rewrite Hfind, Hp. auto 10.
  - right. destruct (lookups_without_match (entries v) site) as (-> & -> & _).
    { apply Forall_forall. intros e He. split.
      - exact (proj1 (Forall_forall _ _) Hwf e He).
      - exact (proj1 (Forall_forall _ _) Hnone e He). }
    rewrite Hfind. auto.
Qed.

(** *** Failures *)

Ltac cases :=
  repeat (first [ destruct (decide _) as [?|?]
                | match goal with
                  | |- context [match ?x with _ => _ end] =>
                      lazymatch type of x with
                      | prod _ _ => fail
                      | _ => destruct x eqn:?
                      end
                  end ];
          steps).

Lemma unlock_never_raises (P : string) (v : PasswordVault) (w : World) (e : exn) :
  fst (unlock_vault P (v, w)) <> Raise e.
Proof.
  destruct v as [vp sp es k], w as [fs dn ck en dr fu si].
  destruct fu as [[[|[|n]] [written|written]]|];
    unfold unlock_vault, _get_or_create_salt; steps;
    cases; discriminate.
Qed.

(** X6. [unlock_vault] never raises: it returns a boolean, unless the
    process is killed. Unless it returns [True], the record set in memory is
    the one before the call; and it never rebinds the paths. This whatever
    the files hold. *)
Theorem unlock_vault_swallows_errors (P : string) (v : PasswordVault) (w : World) :
  let r := unlock_vault P (v, w) in
  (forall e, fst r <> Raise e)
  /\ (fst r = Ok true \/ entries (fst (snd r)) = entries v)
  /\ vault_path (fst (snd r)) = vault_path v
  /\ salt_path (fst (snd r)) = salt_path v.
Proof.
  destruct v as [vp sp es k], w as [fs dn ck en dr fu si]. cbv zeta.
  destruct fu as [[[|[|n]] [written|written]]|];
    unfold unlock_vault, _get_or_create_salt; steps;
    cases; (split; [intros ?; discriminate|]); auto.
Qed.

(** X7. An entry without a site makes the lookups raise: when the entries
    before it have a site other than the one asked, [add_entry] (on an
    unlocked vault), [get_password] and [entry_exists] raise [KeyError],
    and nothing is changed or saved. *)
Theorem entry_without_site_raises (v : PasswordVault) (w : World) (f : Fernet)
    (site username password : string) (pre post : list dict) (bad : dict) :
  fernet v = Some f ->
  entries v = pre ++ bad :: post ->
  Forall (fun e => has_site e /\ ~ same_site site e) pre ->
  bad !! "site"%string = None ->
  add_entry site username password (v, w) = (Raise KeyError, (v, w))
  /\ get_password site (v, w) = (Raise KeyError, (v, w))
  /\ entry_exists site (v, w) = (Raise KeyError, (v, w)).
Proof.
  intros Hf Hes Hpre Hbad.
  assert (forall i, find_from i (entries v) site = Raise KeyError
                    /\ password_in (entries v) site = Raise KeyError
                    /\ exists_in (entries v) site = Raise KeyError) as Hraise.
  { rewrite Hes. clear Hes. induction Hpre as [|e pre [[x Hx] Hno] _ IH]; intros i.
    - cbn [app find_from password_in exists_in]. unfold site_lower. now rewrite Hbad.
    - cbn [app find_from password_in exists_in]. unfold site_lower. rewrite Hx.
      rewrite (site_lower_not_same _ _ _ Hx Hno).
      destruct (IH (S i)) as (-> & -> & ->). auto. }
  destruct (Hraise 0%nat) as (Hfind & Hpw & Hex).
  unfold add_entry, _find_entry_index, get_password, entry_exists. steps.
  rewrite Hf. steps. now rewrite Hfind, Hpw, Hex.
Qed.

(** X8. Unlocking a vault whose salt file is missing writes a new salt
    file: when the vault file exists, the salt file does not and its path
    can be written, [unlock_vault] leaves on disk a salt file of 16 fresh
    random bytes, and changes no other file, whatever it returns. *)
Theorem unlock_vault_creates_missing_salt (P : string) (v : PasswordVault) (w : World)
    (token : bytes) :
  files w !! vault_path v = Some token ->
  files w !! salt_path v = None ->
  salt_path v ∉ denied w -> fuse w = None ->
  files (snd (snd (unlock_vault P (v, w))))
  = <[salt_path v := map (entropy w) (seq (drawn w) 16)]> (files w).
Proof.
  destruct v as [vp sp es k], w as [fs dn ck en dr fu si].
  cbn [vault_path salt_path files denied fuse]. intros Hv Hs Hns ->.
  unfold unlock_vault, _get_or_create_salt. steps. rewrite Hv. steps.
  rewrite Hs. steps.
  destruct (decide (sp ∈ dn)) as [|_]; [contradiction|]. steps.
  rewrite !lookup_insert_ne by congruence. rewrite Hv.
  cases; steps; now rewrite insert_insert_eq.
Qed.

Lemma save_vault_denied v w f :
  fernet v = Some f -> vault_path v ∈ denied w ->
  _save_vault (v, w) = (Ok false, (v, set_drawn (drawn w + 16) w)).
Proof.
  destruct v as [vp sp es k], w as [fs dn ck en dr fu si].
  cbn [fernet vault_path denied]. intros -> Hd.
  unfold _save_vault. steps. destruct (decide _) as [_|]; [reflexivity|contradiction].
Qed.

(** X9. [initialize_vault] returns [True] without the vault having been
    saved: when the salt can be read or written but the vault file cannot
    be opened, the call returns [True] with the key in memory, and the
    vault path holds what it held before, a vault file or none. *)
Theorem initialize_vault_true_without_save (P : string) (v : PasswordVault) (w : World) :
  salt_path v ∉ denied w -> vault_path v ∈ denied w -> fuse w = None ->
  let f := MkFernet (_derive_key P (salt_of v w)) in
  let w1 := with_salt v w in
  initialize_vault P (v, w)
  = (Ok true, (MkVault (vault_path v) (salt_path v) [] (Some f),
               set_drawn (drawn w1 + 16) w1))
  /\ files (set_drawn (drawn w1 + 16) w1) !! vault_path v = files w !! vault_path v.
Proof.
  intros Hns Hdv Hfu. cbv zeta. split.
  - unfold initialize_vault. steps.
    rewrite get_or_create_salt_ok by assumption. steps.
    erewrite save_vault_denied; [reflexivity|reflexivity|].
    unfold with_salt. now destruct (files w !! salt_path v).
  - unfold with_salt. destruct (files w !! salt_path v); [reflexivity|].
    steps. apply lookup_insert_ne. intros Heq. rewrite Heq in Hns. contradiction.
Qed.

(** X10. When the vault file cannot be opened, [add_entry] on an unlocked
    vault returns [False] and writes no file, but the record set in memory
    has the new entry all the same: memory and disk now differ. *)
Theorem add_entry_unsaved_stays_in_memory (v : PasswordVault) (w : World) (f : Fernet)
    (site username password : string) :
  fernet v = Some f -> Forall has_site (entries v) -> vault_path v ∈ denied w ->
  exists idx,
    find_from 0 (entries v) site = Ok idx
    /\ add_entry site username password (v, w)
       = (Ok false,
          (with_entries
             (place idx (new_entry site username password (isoformat (clock w)))
                    (entries v)) v,
           set_drawn (drawn w + 16) w)).
Proof.
  intros Hf Hwf Hd.
  assert (exists idx, find_from 0 (entries v) site = Ok idx) as [idx Hfind].
  { destruct (find_from_first 0 (entries v) site Hwf)
      as [(k & e & Hfind & _)|[Hfind _]]; eauto. }
  exists idx. split; [assumption|].
  rewrite (add_entry_unlocked _ _ _ _ _ _ _ Hf Hfind).
  now apply (save_vault_denied _ w f).
Qed.

(** X11. [initialize_vault] starts an empty vault over whatever was there:
    whatever entries the object held and whatever the vault file contained,
    after the call (on paths that can be opened) the object holds no entry,
    [vault_exists] is [True], and the vault file is a token of the empty
    record set under the new key. *)
Theorem initialize_vault_starts_empty (P : string) (v : PasswordVault) (w : World) :
  salt_path v ∉ denied w -> vault_path v ∉ denied w -> fuse w = None ->
  let s1 := snd (initialize_vault P (v, w)) in
  let f := MkFernet (_derive_key P (salt_of v w)) in
  fst (initialize_vault P (v, w)) = Ok true
  /\ get_entries s1 = (Ok [], s1)
  /\ vault_exists s1 = (Ok true, s1)
  /\ exists t iv,
       files (snd s1) !! vault_path v
       = Some (fernet_encrypt f t iv (str_encode (json_dumps []))).
Proof.
  intros Hns Hnv Hfu. cbv zeta.
  rewrite (initialize_vault_ok P v w Hns Hnv Hfu). cbn [fst snd].
  pose proof (initialized_vault_file P v w) as Hfile. cbv zeta in Hfile.
  split; [reflexivity|]. split; [reflexivity|]. split.
  - unfold vault_exists. steps. unfold initialized. cbv zeta. cbn [fst snd vault_path].
    unfold initialized in Hfile. cbv zeta in Hfile. cbn [snd] in Hfile.
    now rewrite Hfile.
  - rewrite Hfile. unfold token_of. eauto.
Qed.

(** *** Searching *)

Lemma contains_empty hay : contains "" hay = true.
Proof. now destruct hay. Qed.

(** X12. An empty keyword finds everything: when lowering the empty string
    gives the empty string and every entry has a site, a string, and a user
    name, [search_entries ""] returns one match per entry, in order, the
    match at position [i] being that of the entry at index [i]. *)
Theorem search_entries_empty_keyword (s : State) :
  str_lower "" = ""%string ->
  Forall searchable (entries (fst s)) ->
  exists ms,
    search_entries "" s = (Ok ms, s)
    /\ length ms = length (entries (fst s))
    /\ forall i e, entries (fst s) !! i = Some e ->
                   exists m, ms !! i = Some m /\ search_hit i e m.
Proof.
  intros Hlow Hwf. unfold search_entries. steps. rewrite Hlow.
  assert (forall i, exists ms,
             search_from i (entries (fst s)) "" = Ok ms
             /\ length ms = length (entries (fst s))
             /\ forall j e, entries (fst s) !! j = Some e ->
                            exists m, ms !! j = Some m /\ search_hit (i + j) e m) as H.
  { induction Hwf as [|e es He _ IH]; intros i.
    - exists []. repeat split. intros j e Hj. discriminate.
    - destruct (IH (S i)) as (ms & Hms & Hlen & Hall).
      destruct (search_match_hit i e He) as (m & Hm & Hhit).
      destruct He as [[x Hx] _].
      exists (m :: ms). cbn [search_from]. unfold site_lower.
      rewrite Hx, contains_empty, Hm, Hms. split; [reflexivity|].
      split; [cbn; now rewrite Hlen|].
      intros [|j] e0 Hj.
      + injection Hj as <-. exists m. rewrite Nat.add_0_r. auto.
      + destruct (Hall j e0 Hj) as (m0 & Hm0 & Hh0). exists m0.
        split; [exact Hm0|]. now replace (i + S j)%nat with (S i + j)%nat by lia. }
  destruct (H 0%nat) as (ms & -> & Hlen & Hall). exists ms. auto.
Qed.

Lemma search_match_listing i e m :
  search_match i e = Ok m -> listing e = Ok (delete "index"%string m).
Proof.
  unfold search_match, listing.
  destruct (e !! "site"%string) as [x|]; [|discriminate].
  destruct (e !! "username"%string) as [u|]; [|discriminate].
  intros [= <-]. now rewrite delete_insert_id by reflexivity.
Qed.

(** X13. A match of [search_entries] is the line [get_entries] shows for
    the same entry, with the index added: when every entry has a site, a
    string, and a user name, each match [m] carries an index [i], and
    [get_entries] has at position [i] the dictionary [m] without its
    [index]. *)
Theorem search_matches_are_listings (s : State) (keyword : string) :
  Forall searchable (entries (fst s)) ->
  exists ms ds,
    search_entries keyword s = (Ok ms, s)
    /\ get_entries s = (Ok ds, s)
    /\ Forall (fun m => exists i : nat,
                  m !! "index"%string = Some (VInt (Z.of_nat i))
                  /\ ds !! i = Some (delete "index"%string m)) ms.
Proof.
  intros Hwf. unfold search_entries, get_entries. steps.
  assert (forall i, exists ms ds,
             search_from i (entries (fst s)) (str_lower keyword) = Ok ms
             /\ listings (entries (fst s)) = Ok ds
             /\ Forall (fun m => exists j : nat,
                           m !! "index"%string = Some (VInt (Z.of_nat (i + j)))
                           /\ ds !! j = Some (delete "index"%string m)) ms) as H.
  { induction Hwf as [|e es He _ IH]; intros i.
    - exists [], []. repeat split. constructor.
    - destruct (IH (S i)) as (ms & ds & Hms & Hds & Hall).
      destruct (search_match_hit i e He) as (m & Hm & Hidx & _).
      pose proof (search_match_listing i e m Hm) as Hl.
      destruct He as [[x Hx] _].
      assert (Forall (fun m0 => exists j : nat,
                        m0 !! "index"%string = Some (VInt (Z.of_nat (i + j)))
                        /\ (delete "index"%string m :: ds) !! j
                           = Some (delete "index"%string m0)) ms) as Hall'.
      { eapply Forall_impl; [exact Hall|]. intros m0 (j & Hj & Hd).
        exists (S j). split; [|exact Hd].
        now replace (i + S j)%nat with (S i + j)%nat by lia. }
      cbn [search_from listings]. unfold site_lower. rewrite Hx, Hl, Hds.
      destruct (contains (str_lower keyword) (str_lower x)).
      + rewrite Hm, Hms. exists (m :: ms), (delete "index"%string m :: ds).
        split; [reflexivity|]. split; [reflexivity|].
        constructor; [|exact Hall'].
        exists 0%nat. rewrite Nat.add_0_r. auto.
      + exists ms, (delete "index"%string m :: ds). auto. }
  destruct (H 0%nat) as (ms & ds & -> & -> & Hall). exists ms, ds. auto.
Qed.

End WithRuntime.
End More.


(** ** The password generator (src/password_generator.py) *)

Module Generator.

(** *** [random]

    The generator of pseudo-random numbers is taken as a sequence of draws,
    of which [randbelow n] reduces the next one below [n]; [choice] and
    [shuffle] are built on it as in CPython. The theorems hold for every
    sequence. *)

Record Rng : Type := MkRng { draws : nat -> nat; used : nat }.

Definition randbelow (n : nat) (g : Rng) : nat * Rng :=
  ((draws g (used g) mod n)%nat, MkRng (draws g) (S (used g))).

(** [random.choice(seq)]: [seq[randbelow(len(seq))]]. Python raises
    [IndexError] on an empty sequence; [generate_password] chooses from
    the four alphabets and their concatenations only. *)
Definition choice (seq : string) (g : Rng) : ascii * Rng :=
  let (k, g') := randbelow (String.length seq) g in
  (match String.get k seq with Some c => c | None => Ascii.zero end, g').

(** [x[i], x[j] = x[j], x[i]] *)
Definition swap (x : list ascii) (i j : nat) : list ascii :=
  match x !! i, x !! j with
  | Some xi, Some xj => <[j := xi]> (<[i := xj]> x)
  | _, _ => x
  end.

(** The loop of [random.shuffle], [for i in reversed(range(1, len(x)))],
    from [i] down. *)
Fixpoint shuffle_from (i : nat) (x : list ascii) (g : Rng) : list ascii * Rng :=
  match i with
  | O => (x, g)
  | S i' =>
      let (j, g') := randbelow (S (S i')) g in
      shuffle_from i' (swap x (S i') j) g'
  end.

Definition shuffle (x : list ascii) (g : Rng) : list ascii * Rng :=
  shuffle_from (length x - 1) x g.

(** [[random.choice(chars) for _ in range(n)]] *)
Fixpoint choices (n : nat) (chars : string) (g : Rng) : list ascii * Rng :=
  match n with
  | O => ([], g)
  | S n' =>
      let (c, g1) := choice chars g in
      let (cs, g2) := choices n' chars g1 in
      (c :: cs, g2)
  end.

(** *** [class PasswordGenerator] *)

Definition ascii_lowercase : string := "abcdefghijklmnopqrstuvwxyz".
Definition ascii_uppercase : string := "ABCDEFGHIJKLMNOPQRSTUVWXYZ".
Definition digits : string := "0123456789".
Definition special_chars : string := "!@#$%^&*()_+-=[]{}|;:,.<>?".

(** The alphabet and the required characters after the three [if]s. *)
Definition alphabet (include_uppercase include_numbers include_special : bool)
    : string :=
  let chars := ascii_lowercase in
  let chars := if include_uppercase then chars +:+ ascii_uppercase else chars in
  let chars := if include_numbers then chars +:+ digits else chars in
  if include_special then chars +:+ special_chars else chars.

Definition generate_password (length : Z)
    (include_uppercase include_numbers include_special : bool) (g : Rng)
    : string * Rng :=
  let length := if length <? 4 then 4 else length in
  let chars := ascii_lowercase in
  let required_chars : list ascii := [] in
  let '(chars, required_chars, g) :=
    if include_uppercase then
      let (c, g) := choice ascii_uppercase g in
      (chars +:+ ascii_uppercase, required_chars ++ [c], g)
    else (chars, required_chars, g) in
  let '(chars, required_chars, g) :=
    if include_numbers then
      let (c, g) := choice digits g in
      (chars +:+ digits, required_chars ++ [c], g)
    else (chars, required_chars, g) in
  let '(chars, required_chars, g) :=
    if include_special then
      let (c, g) := choice special_chars g in
      (chars +:+ special_chars, required_chars ++ [c], g)
    else (chars, required_chars, g) in
  let (c, g) := choice ascii_lowercase g in
  let required_chars := required_chars ++ [c] in
  let remaining_length := length - Z.of_nat (List.length required_chars) in
  let (random_chars, g) := choices (Z.to_nat remaining_length) chars g in
  let password_chars := required_chars ++ random_chars in
  let (password_chars, g) := shuffle password_chars g in
  (string_of_list_ascii password_chars, g).

(** [c in chars], and [any(c in chars for c in password)]. *)
Definition mem (chars : string) (c : ascii) : bool :=
  existsb (Ascii.eqb c) (list_ascii_of_string chars).

Definition occurs (chars password : string) : bool :=
  existsb (mem chars) (list_ascii_of_string password).

(** [all(c in chars for c in password)] *)
Definition within (chars password : string) : bool :=
  forallb (mem chars) (list_ascii_of_string password).

(** *** [get_password_strength]

    The password is any [str], taken as the list of its code points;
    [str.islower], [str.isupper] and [str.isdigit] on one character are
    the Python runtime's. *)
Class CharClasses : Type := {
  islower : N -> bool;
  isupper : N -> bool;
  isdigit : N -> bool;
}.

(** The code points of a [str] of ASCII characters. *)
Definition code_points (s : string) : list N :=
  map N_of_ascii (list_ascii_of_string s).

(** [c in s], for a character [c] and ASCII [s]. *)
Definition char_in (s : string) (c : N) : bool :=
  existsb (N.eqb c) (code_points s).

Section Strength.
Context `{CC : CharClasses}.

(** The score [get_password_strength] adds up. *)
Definition score (password : list N) : nat :=
  let score := 0%nat in
  let score := if (8 <=? length password)%nat then (score + 1)%nat else score in
  let score := if (12 <=? length password)%nat then (score + 1)%nat else score in
  let score := if existsb islower password then (score + 1)%nat else score in
  let score := if existsb isupper password then (score + 1)%nat else score in
  let score := if existsb isdigit password then (score + 1)%nat else score in
  let score :=
    if existsb (char_in special_chars) password then (score + 1)%nat else score in
  score.

Definition get_password_strength (password : list N) : string :=
  let score := score password in
  if (score <=? 2)%nat then "Weak"
  else if (score <=? 4)%nat then "Medium"
  else "Strong".

End Strength.

(** On the ASCII letters, the digits and the special characters, the
    classes are what they are in Python. *)
Class AsciiClasses (CC : CharClasses) : Prop := {
  lowercase_class : forall c, char_in ascii_lowercase c = true ->
    islower c = true /\ isupper c = false /\ isdigit c = false;
  uppercase_class : forall c, char_in ascii_uppercase c = true ->
    islower c = false /\ isupper c = true /\ isdigit c = false;
  digits_class : forall c, char_in digits c = true ->
    islower c = false /\ isupper c = false /\ isdigit c = true;
  special_class : forall c, char_in special_chars c = true ->
    islower c = false /\ isupper c = false /\ isdigit c = false;
}.

(** The classes of the ASCII characters, with no other character in any
    class. *)
Definition between (lo hi c : N) : bool := ((lo <=? c) && (c <=? hi))%N.

Definition ascii_only : CharClasses := {|
  islower := between 97 122;
  isupper := between 65 90;
  isdigit := between 48 57;
|}.

End Generator.

Module GeneratorProps.
Import Generator.

Lemma get_lookup (s : string) (k : nat) :
  String.get k s = list_ascii_of_string s !! k.
Proof.
  revert k; induction s as [|c s IH]; intros [|k]; simpl; auto.
Qed.

Lemma list_ascii_length (s : string) :
  length (list_ascii_of_string s) = String.length s.
Proof. induction s; simpl; congruence. Qed.

Lemma list_ascii_app (s t : string) :
  list_ascii_of_string (s +:+ t) = list_ascii_of_string s ++ list_ascii_of_string t.
Proof. induction s as [|c s IH]; simpl; [reflexivity | now rewrite IH]. Qed.

Lemma choice_in (seq : string) (g : Rng) :
  seq <> ""%string -> fst (choice seq g) ∈ list_ascii_of_string seq.
Proof.
  intros Hne. unfold choice, randbelow. simpl.
  rewrite get_lookup.
  destruct (lookup_lt_is_Some_2 (list_ascii_of_string seq)
              (draws g (used g) mod String.length seq)%nat) as [c Hc].
  - rewrite list_ascii_length. apply Nat.mod_upper_bound.
    destruct seq; [congruence | simpl; lia].
  - rewrite Hc. eapply list_elem_of_lookup_2; eauto.
Qed.

Lemma choices_length (n : nat) (chars : string) (g : Rng) :
  length (fst (choices n chars g)) = n.
Proof.
  revert g; induction n as [|n IH]; intros g; cbn [choices]; auto.
  destruct (choice chars g) as [c g1].
  specialize (IH g1). destruct (choices n chars g1). simpl in *. congruence.
Qed.

Lemma choices_in (n : nat) (chars : string) (g : Rng) :
  chars <> ""%string ->
  Forall (fun c => c ∈ list_ascii_of_string chars) (fst (choices n chars g)).
Proof.
  intros Hne. revert g; induction n as [|n IH]; intros g; cbn [choices]; auto.
  pose proof (choice_in chars g Hne) as Hc.
  destruct (choice chars g) as [c g1].
  specialize (IH g1). destruct (choices n chars g1). simpl in *.
  constructor; auto.
Qed.

Lemma swap_permutation (x : list ascii) (i j : nat) : swap x i j ≡ₚ x.
Proof.
  unfold swap.
  destruct (x !! i) as [xi|] eqn:Hi; [|reflexivity].
  destruct (x !! j) as [xj|] eqn:Hj; [|reflexivity].
  now apply Permutation_insert_swap.
Qed.

Lemma shuffle_from_permutation (i : nat) (x : list ascii) (g : Rng) :
  fst (shuffle_from i x g) ≡ₚ x.
Proof.
  revert x g; induction i as [|i IH]; intros x g; cbn [shuffle_from];
    [reflexivity|].
  destruct (randbelow (S (S i)) g) as [j g'].
  rewrite IH. apply swap_permutation.
Qed.

Lemma shuffle_permutation (x : list ascii) (g : Rng) : fst (shuffle x g) ≡ₚ x.
Proof. apply shuffle_from_permutation. Qed.

(** The characters [generate_password] puts together before shuffling:
    one of each class asked for, in the order of the [if]s, and the
    lowercase one. *)
Definition required (u n s : bool) (cu cn cs cl : ascii) : list ascii :=
  (if u then [cu] else []) ++ (if n then [cn] else []) ++
  (if s then [cs] else []) ++ [cl].

Ltac pick :=
  match goal with
  | |- context [choice ?a ?g] =>
      let H := fresh "Hin" in
      pose proof (choice_in a g ltac:(discriminate)) as H;
      destruct (choice a g) as [? ?]; cbn [fst] in H
  end.

Lemma generate_password_shape (len : Z) (u n s : bool) (g : Rng) :
  exists cu cn cs cl random,
    cu ∈ list_ascii_of_string ascii_uppercase /\
    cn ∈ list_ascii_of_string digits /\
    cs ∈ list_ascii_of_string special_chars /\
    cl ∈ list_ascii_of_string ascii_lowercase /\
    Forall (fun c => c ∈ list_ascii_of_string (alphabet u n s)) random /\
    length random =
      Z.to_nat (Z.max len 4 - Z.of_nat (length (required u n s cu cn cs cl))) /\
    list_ascii_of_string (fst (generate_password len u n s g)) ≡ₚ
      required u n s cu cn cs cl ++ random.
Proof.
  assert (Hlen : (if len <? 4 then 4 else len) = Z.max len 4)
    by (destruct (Z.ltb_spec len 4); lia).
  pose proof (choice_in ascii_uppercase g ltac:(discriminate)) as Du.
  pose proof (choice_in digits g ltac:(discriminate)) as Dn.
  pose proof (choice_in special_chars g ltac:(discriminate)) as Ds.
  unfold generate_password. rewrite Hlen. clear Hlen.
  destruct u, n, s; cbv beta iota zeta;
    repeat (pick; cbv beta iota zeta).
  all: match goal with
       | |- context [choices ?k ?a ?g] =>
           pose proof (choices_length k a g) as Hk;
           pose proof (choices_in k a g ltac:(discriminate)) as Ha;
           destruct (choices k a g) as [random ?]; cbn [fst] in Hk, Ha
       end.
  all: match goal with
       | |- context [shuffle ?x ?g] =>
           pose proof (shuffle_permutation x g) as Hp;
           destruct (shuffle x g) as [? ?]; cbn [fst] in Hp
       end.
  all: cbn [fst]; rewrite list_ascii_of_string_of_list_ascii.
  all: eexists _, _, _, _, random.
  all: split; [eassumption|]; split; [eassumption|]; split; [eassumption|].
  all: split; [eassumption|]; split; [exact Ha|]; split; [exact Hk | exact Hp].
Qed.

Lemma mem_spec (chars : string) (c : ascii) :
  mem chars c = true <-> c ∈ list_ascii_of_string chars.
Proof.
  unfold mem. rewrite existsb_exists. split.
  - intros (d & Hd & Heq). apply Ascii.eqb_eq in Heq. subst d.
    now apply list_elem_of_In.
  - intros Hc. exists c. split; [now apply list_elem_of_In | apply Ascii.eqb_refl].
Qed.

Lemma occurs_spec (chars password : string) :
  occurs chars password = true <->
  exists c, c ∈ list_ascii_of_string password /\ mem chars c = true.
Proof.
  unfold occurs. rewrite existsb_exists.
  split; intros (c & Hc & Hm); exists c; split; auto; now apply list_elem_of_In.
Qed.

(** No character is in two of the four alphabets. *)
Lemma one_class (c : ascii) :
  (Nat.b2n (mem ascii_lowercase c) + Nat.b2n (mem ascii_uppercase c) +
   Nat.b2n (mem digits c) + Nat.b2n (mem special_chars c) <= 1)%nat.
Proof.
  destruct c as [[] [] [] [] [] [] [] []]; vm_compute; lia.
Qed.

Lemma mem_alphabet (u n s : bool) (c : ascii) :
  mem (alphabet u n s) c =
  mem ascii_lowercase c || (u && mem ascii_uppercase c) ||
  (n && mem digits c) || (s && mem special_chars c).
Proof.
  unfold mem, alphabet.
  destruct u, n, s; rewrite ?list_ascii_app, ?existsb_app;
    cbn [andb]; rewrite ?orb_false_r; reflexivity.
Qed.

Lemma generate_password_member (len : Z) (u n s : bool) (g : Rng) (c : ascii) :
  c ∈ list_ascii_of_string (fst (generate_password len u n s g)) ->
  mem (alphabet u n s) c = true.
Proof.
  destruct (generate_password_shape len u n s g)
    as (cu & cn & cs & cl & random & Hu & Hn & Hs & Hl & Ha & _ & Hp).
  rewrite Hp. rewrite elem_of_app. intros [Hc | Hc].
  - rewrite mem_alphabet.
    apply mem_spec in Hu, Hn, Hs, Hl.
    unfold required in Hc.
    destruct u, n, s; cbn in Hc;
      repeat (apply elem_of_cons in Hc; destruct Hc as [-> | Hc]);
      try (now apply elem_of_nil in Hc);
      rewrite ?Hu, ?Hn, ?Hs, ?Hl; cbn; rewrite ?orb_true_r; reflexivity.
  - apply mem_spec. rewrite Forall_forall in Ha. now apply Ha.
Qed.

Lemma occurs_flag (chars : string) (flag : bool) (password : string) :
  (flag = true -> exists c, c ∈ list_ascii_of_string password /\ mem chars c = true) ->
  (flag = false -> forall c, c ∈ list_ascii_of_string password -> mem chars c = false) ->
  occurs chars password = flag.
Proof.
  intros Hyes Hno. destruct flag.
  - apply occurs_spec. auto.
  - destruct (occurs chars password) eqn:Ho; [|reflexivity].
    apply occurs_spec in Ho. destruct Ho as (c & Hc & Hm).
    rewrite (Hno eq_refl c Hc) in Hm. discriminate.
Qed.

Lemma generate_password_occurs (len : Z) (u n s : bool) (g : Rng) :
  let password := fst (generate_password len u n s g) in
  occurs ascii_lowercase password = true /\
  occurs ascii_uppercase password = u /\
  occurs digits password = n /\
  occurs special_chars password = s.
Proof.
  intros password.
  pose proof (generate_password_member len u n s g) as Hall.
  fold password in Hall.
  destruct (generate_password_shape len u n s g)
    as (cu & cn & cs & cl & random & Hu & Hn & Hs & Hl & _ & _ & Hp).
  fold password in Hp.
  apply mem_spec in Hu, Hn, Hs, Hl.
  assert (Hno : forall c, c ∈ list_ascii_of_string password ->
            (u = false -> mem ascii_uppercase c = false) /\
            (n = false -> mem digits c = false) /\
            (s = false -> mem special_chars c = false)).
  { intros c Hc. specialize (Hall c Hc). rewrite mem_alphabet in Hall.
    pose proof (one_class c) as Hone.
    destruct (mem ascii_lowercase c), (mem ascii_uppercase c), (mem digits c),
      (mem special_chars c), u, n, s; cbn in Hall, Hone; try lia;
      try discriminate; repeat split; congruence. }
  split; [|split; [|split]].
  - apply occurs_spec. exists cl. split; [|exact Hl].
    rewrite Hp. unfold required. cbn [app]. rewrite ?elem_of_app, ?elem_of_cons. auto 10.
  - apply occurs_flag.
    + intros ->. exists cu. split; [|exact Hu].
      rewrite Hp. unfold required. cbn [app]. rewrite ?elem_of_app, ?elem_of_cons. auto 10.
    + intros Hf c Hc. now apply (Hno c Hc).
  - apply occurs_flag.
    + intros ->. exists cn. split; [|exact Hn].
      rewrite Hp. unfold required. cbn [app]. rewrite ?elem_of_app, ?elem_of_cons. auto 10.
    + intros Hf c Hc. now apply (Hno c Hc).
  - apply occurs_flag.
    + intros ->. exists cs. split; [|exact Hs].
      rewrite Hp. unfold required. cbn [app]. rewrite ?elem_of_app, ?elem_of_cons. auto 10.
    + intros Hf c Hc. now apply (Hno c Hc).
Qed.

Lemma generate_password_chars (len : Z) (u n s : bool) (g : Rng) :
  length (list_ascii_of_string (fst (generate_password len u n s g))) =
  Z.to_nat (Z.max len 4).
Proof.
  destruct (generate_password_shape len u n s g)
    as (cu & cn & cs & cl & random & _ & _ & _ & _ & _ & Hk & Hp).
  rewrite Hp, length_app, Hk.
  unfold required. destruct u, n, s; cbn [length app]; lia.
Qed.

Lemma char_in_ascii (chars : string) (c : ascii) :
  char_in chars (N_of_ascii c) = mem chars c.
Proof.
  unfold char_in, mem, code_points.
  induction (list_ascii_of_string chars) as [|d l IH]; cbn [map existsb];
    [reflexivity|].
  rewrite IH. f_equal.
  destruct (Ascii.eqb_spec c d) as [->|Hne]; [apply N.eqb_refl|].
  apply N.eqb_neq. intros Heq. apply Hne.
  now rewrite <- (ascii_N_embedding c), <- (ascii_N_embedding d), Heq.
Qed.

Lemma existsb_code_points (f : N -> bool) (m : ascii -> bool) (l : list ascii) :
  (forall c, c ∈ l -> f (N_of_ascii c) = m c) ->
  existsb f (map N_of_ascii l) = existsb m l.
Proof.
  induction l as [|c l IH]; intros Hf; cbn [map existsb]; [reflexivity|].
  rewrite Hf by (apply elem_of_cons; auto).
  rewrite IH; [reflexivity|]. intros d Hd. apply Hf. apply elem_of_cons; auto.
Qed.

Lemma score_sum `{CC : CharClasses} (password : list N) :
  score password =
  (Nat.b2n (8 <=? length password) + Nat.b2n (12 <=? length password) +
   Nat.b2n (existsb islower password) + Nat.b2n (existsb isupper password) +
   Nat.b2n (existsb isdigit password) +
   Nat.b2n (existsb (char_in special_chars) password))%nat.
Proof.
  unfold score.
  destruct (8 <=? length password)%nat, (12 <=? length password)%nat,
    (existsb islower password), (existsb isupper password),
    (existsb isdigit password), (existsb (char_in special_chars) password);
    reflexivity.
Qed.

Lemma b2n_orb_le (a b : bool) : (Nat.b2n a <= Nat.b2n (a || b))%nat.
Proof. destruct a, b; cbn; lia. Qed.

Lemma b2n_leb_le (k n m : nat) :
  (n <= m)%nat -> (Nat.b2n (k <=? n) <= Nat.b2n (k <=? m))%nat.
Proof.
  intros Hle. destruct (Nat.leb_spec k n), (Nat.leb_spec k m); cbn; lia.
Qed.

Lemma score_app `{CC : CharClasses} (p q : list N) :
  (score p <= score (p ++ q))%nat.
Proof.
  rewrite !score_sum, !existsb_app, length_app.
  pose proof (b2n_leb_le 8 (length p) (length p + length q) ltac:(lia)).
  pose proof (b2n_leb_le 12 (length p) (length p + length q) ltac:(lia)).
  pose proof (b2n_orb_le (existsb islower p) (existsb islower q)).
  pose proof (b2n_orb_le (existsb isupper p) (existsb isupper q)).
  pose proof (b2n_orb_le (existsb isdigit p) (existsb isdigit q)).
  pose proof (b2n_orb_le (existsb (char_in special_chars) p)
                (existsb (char_in special_chars) q)).
  lia.
Qed.

Lemma rating_of_score `{CC : CharClasses} (password : list N) :
  (get_password_strength password = "Weak"%string <-> (score password <= 2)%nat) /\
  (get_password_strength password = "Medium"%string <->
     (3 <= score password <= 4)%nat) /\
  (get_password_strength password = "Strong"%string <-> (5 <= score password)%nat).
Proof.
  unfold get_password_strength.
  destruct (Nat.leb_spec (score password) 2), (Nat.leb_spec (score password) 4);
    repeat split; intros; try discriminate; try lia; reflexivity.
Qed.

Section WithClasses.
Context `{Laws : AsciiClasses}.

Lemma classes_of_member (u n s : bool) (c : ascii) :
  mem (alphabet u n s) c = true ->
  islower (N_of_ascii c) = mem ascii_lowercase c /\
  isupper (N_of_ascii c) = mem ascii_uppercase c /\
  isdigit (N_of_ascii c) = mem digits c.
Proof.
  rewrite mem_alphabet. intros Hc.
  pose proof (one_class c) as Hone.
  pose proof (lowercase_class (N_of_ascii c)) as Hl.
  pose proof (uppercase_class (N_of_ascii c)) as Hu.
  pose proof (digits_class (N_of_ascii c)) as Hn.
  pose proof (special_class (N_of_ascii c)) as Hs.
  rewrite char_in_ascii in Hl, Hu, Hn, Hs.
  destruct (mem ascii_lowercase c), (mem ascii_uppercase c), (mem digits c),
    (mem special_chars c); cbn in Hone; try lia;
    try (now apply Hl); try (now apply Hu); try (now apply Hn);
    try (now apply Hs).
Qed.

Lemma generate_password_score (len : Z) (u n s : bool) (g : Rng) :
  let password := fst (generate_password len u n s g) in
  score (code_points password) =
  (Nat.b2n (8 <=? Z.to_nat (Z.max len 4)) +
   Nat.b2n (12 <=? Z.to_nat (Z.max len 4)) + 1 +
   Nat.b2n u + Nat.b2n n + Nat.b2n s)%nat.
Proof.
  intros password.
  pose proof (generate_password_member len u n s g) as Hall.
  pose proof (generate_password_chars len u n s g) as Hlen.
  destruct (generate_password_occurs len u n s g) as (Hl & Hu & Hn & Hs).
  fold password in Hall, Hlen, Hl, Hu, Hn, Hs.
  rewrite score_sum. unfold code_points. rewrite length_map, Hlen.
  rewrite (existsb_code_points islower (mem ascii_lowercase))
    by (intros c Hc; now apply (classes_of_member u n s c (Hall c Hc))).
  rewrite (existsb_code_points isupper (mem ascii_uppercase))
    by (intros c Hc; now apply (classes_of_member u n s c (Hall c Hc))).
  rewrite (existsb_code_points isdigit (mem digits))
    by (intros c Hc; now apply (classes_of_member u n s c (Hall c Hc))).
  rewrite (existsb_code_points (char_in special_chars) (mem special_chars))
    by (intros c _; apply char_in_ascii).
  fold (occurs ascii_lowercase password) (occurs ascii_uppercase password)
    (occurs digits password) (occurs special_chars password).
  rewrite Hl, Hu, Hn, Hs. cbn [Nat.b2n]. lia.
Qed.

End WithClasses.

(** The ASCII-only classes are those of Python on the four alphabets. *)
Lemma ascii_only_laws : AsciiClasses ascii_only.
Proof.
  split; intros c Hc; unfold char_in in Hc; apply existsb_exists in Hc;
    destruct Hc as (d & Hd & Heq); apply N.eqb_eq in Heq; subst d;
    cbn in Hd; repeat (destruct Hd as [<- | Hd]; [now vm_compute|]);
    destruct Hd.
Qed.

(** X14. [generate_password] returns exactly [length] characters, and
    four when [length] is below four, whatever the classes asked for and
    whatever the random numbers drawn. *)
Theorem generate_password_length (len : Z) (u n s : bool) (g : Rng) :
  String.length (fst (generate_password len u n s g)) = Z.to_nat (Z.max len 4).
Proof.
  rewrite <- list_ascii_length. apply generate_password_chars.
Qed.

(** X15. Every character of a generated password is of the alphabet
    selected; a lowercase letter always occurs, and an uppercase letter, a
    digit and a special character occur exactly when they were asked
    for. *)
Theorem generate_password_classes (len : Z) (u n s : bool) (g : Rng) :
  let password := fst (generate_password len u n s g) in
  within (alphabet u n s) password = true /\
  occurs ascii_lowercase password = true /\
  occurs ascii_uppercase password = u /\
  occurs digits password = n /\
  occurs special_chars password = s.
Proof.
  intros password. split; [|apply generate_password_occurs].
  unfold within. apply forallb_forall. intros c Hc.
  apply (generate_password_member len u n s g). now apply list_elem_of_In.
Qed.

(** X16. The score [get_password_strength] gives a generated password is
    fixed by the length and the classes asked for: one point for eight
    characters, one for twelve, one for the lowercase letter and one for
    each class. So the password is rated Strong exactly from twelve
    characters with two classes, or from eight with all three. *)
Theorem generated_password_rating `{Laws : AsciiClasses}
    (len : Z) (u n s : bool) (g : Rng) :
  let password := fst (generate_password len u n s g) in
  let classes := (Nat.b2n u + Nat.b2n n + Nat.b2n s)%nat in
  score (code_points password) =
    (Nat.b2n (8 <=? Z.to_nat (Z.max len 4)) +
     Nat.b2n (12 <=? Z.to_nat (Z.max len 4)) + 1 + classes)%nat /\
  (get_password_strength (code_points password) = "Strong"%string <->
   (12 <= len /\ (2 <= classes)%nat) \/ (8 <= len /\ classes = 3%nat)).
Proof.
  intros password classes.
  pose proof (generate_password_score len u n s g) as Hscore.
  fold password in Hscore. split; [rewrite Hscore; unfold classes; lia|].
  destruct (rating_of_score (code_points password)) as (_ & _ & ->).
  rewrite Hscore. unfold classes.
  destruct (Nat.leb_spec 8 (Z.to_nat (Z.max len 4))),
    (Nat.leb_spec 12 (Z.to_nat (Z.max len 4))), u, n, s;
    cbn [Nat.b2n]; lia.
Qed.

(** X17. No password of fewer than eight characters is rated Strong, and
    none of fewer than twelve is with fewer than three of the four kinds of
    character, whatever the runtime's character classes. *)
Theorem strong_password_is_long `{CC : CharClasses} (password : list N) :
  get_password_strength password = "Strong"%string ->
  (8 <= length password)%nat /\
  ((length password < 12)%nat ->
   existsb islower password && existsb isupper password &&
   existsb isdigit password && existsb (char_in special_chars) password = true).
Proof.
  intros Hstrong. apply rating_of_score in Hstrong.
  rewrite score_sum in Hstrong.
  destruct (Nat.leb_spec 8 (length password)),
    (Nat.leb_spec 12 (length password)),
    (existsb islower password), (existsb isupper password),
    (existsb isdigit password), (existsb (char_in special_chars) password);
    cbn in Hstrong; try lia; split; auto; lia.
Qed.

(** X18. Typing more characters never lowers the rating: the score of a
    password with characters appended is no less, a Strong password stays
    Strong and a Weak longer password was Weak before. *)
Theorem appending_never_lowers_the_rating `{CC : CharClasses} (p q : list N) :
  (score p <= score (p ++ q))%nat /\
  (get_password_strength p = "Strong"%string ->
   get_password_strength (p ++ q) = "Strong"%string) /\
  (get_password_strength (p ++ q) = "Weak"%string ->
   get_password_strength p = "Weak"%string).
Proof.
  pose proof (score_app p q) as Hle.
  split; [exact Hle|]. split; intros Hr.
  - apply rating_of_score. apply rating_of_score in Hr. lia.
  - apply rating_of_score. apply rating_of_score in Hr. lia.
Qed.

End GeneratorProps.

(** ** Authentication in the CLI (src/password_wallet.py)

    [authenticate] of [PasswordWalletCLI], on the vault and the world of
    [Py]; what it prints is left out. *)

Module Wallet.
Import Vault Props.

(** [len(s)], the number of characters of [s]: the bytes of its UTF-8 text
    that do not continue a character. *)
Definition continuation (c : ascii) : bool :=
  ((128 <=? nat_of_ascii c) && (nat_of_ascii c <? 192))%nat.

Definition len (s : string) : nat :=
  length (List.filter (fun c => negb (continuation c)) (list_ascii_of_string s)).

(** [getpass.getpass(prompt)]: the next line typed, or [EOFError]. *)
Definition getpass : M string := OS.input.

Arguments getpass s /.

Ltac typed := repeat progress (cbn [getpass]; More.steps).

Section Methods.
Context `{RT : Runtime}.

(** The [while True] loop of [authenticate]: a round either breaks, or has
    read at least one line and goes round again, so [fuel] rounds are
    enough for [fuel] lines and the [EOFError] after them. *)
Fixpoint new_master_password (fuel : nat) : M string :=
  match fuel with
  | O => raise EOFError
  | S fuel' =>
      let! master_password := getpass in
      if (len master_password <? 6)%nat then new_master_password fuel'
      else
        let! confirm_password := getpass in
        if negb (String.eqb master_password confirm_password)
        then new_master_password fuel'
        else ret master_password
  end.

Definition authenticate : M bool :=
  let! found := vault_exists in
  if found then
    let! master_password := getpass in
    let! unlocked := unlock_vault master_password in
    if unlocked then ret true else ret false
  else
    let! w := get_world in
    let! master_password := new_master_password (S (length (stdin w))) in
    let! created := initialize_vault master_password in
    if created then ret true else ret false.

(** The lines of the rounds that went round again: a passphrase of fewer
    than six characters, or a longer one and a confirmation that
    differs. *)
Inductive rejected : list string -> Prop :=
  | rejected_none : rejected []
  | rejected_short P lines :
      (len P < 6)%nat -> rejected lines -> rejected (P :: lines)
  | rejected_mismatch P Q lines :
      (6 <= len P)%nat -> P <> Q -> rejected lines -> rejected (P :: Q :: lines).

(** The lines typed end before a passphrase was confirmed. *)
Definition unconfirmed (lines : list string) : Prop :=
  rejected lines
  \/ exists pre P, lines = pre ++ [P] /\ rejected pre /\ (6 <= len P)%nat.

Lemma rejected_app (pre lines : list string) :
  rejected pre -> rejected lines -> rejected (pre ++ lines).
Proof.
  induction 1; intros Hl; cbn [app]; auto using rejected.
Qed.

Lemma unconfirmed_after (pre lines : list string) :
  rejected pre -> unconfirmed lines -> unconfirmed (pre ++ lines).
Proof.
  intros Hpre [Hl | (mid & P & -> & Hmid & HP)].
  - left. now apply rejected_app.
  - right. exists (pre ++ mid), P. rewrite app_assoc.
    split; [reflexivity|]. split; [now apply rejected_app | assumption].
Qed.

Lemma new_master_password_spec (fuel : nat) (v : PasswordVault) (w : World) :
  (length (stdin w) < fuel)%nat ->
  (exists pre P rest,
      stdin w = pre ++ P :: P :: rest /\ rejected pre /\ (6 <= len P)%nat
      /\ new_master_password fuel (v, w) = (Ok P, (v, set_stdin rest w)))
  \/ (unconfirmed (stdin w)
      /\ new_master_password fuel (v, w) = (Raise EOFError, (v, set_stdin [] w))).
Proof.
  revert w. induction fuel as [|fuel IH]; intros w Hfuel; [lia|].
  destruct w as [fs dn ck en dr fu lines]. cbn [stdin] in *.
  cbn [new_master_password]. typed.
  destruct lines as [|P lines]; typed.
  { right. split; [left; constructor | reflexivity]. }
  destruct (Nat.ltb_spec (len P) 6) as [Hshort | Hlong].
  - destruct (IH (MkWorld fs dn ck en dr fu lines)) as
      [(pre & P' & rest & Hl & Hpre & HP & Hrun) | [Hun Hrun]];
      [cbn [stdin length] in *; lia | |]; cbn [stdin] in *; rewrite Hrun.
    + left. exists (P :: pre), P', rest. subst lines.
      split; [reflexivity|]. split; [now constructor|]. split; [assumption|].
      reflexivity.
    + right. split; [|reflexivity].
      apply (unconfirmed_after [P] lines); [|assumption].
      constructor; [assumption | constructor].
  - destruct lines as [|Q lines]; typed.
    { right. split; [|reflexivity]. right. exists [], P.
      split; [reflexivity|]. split; [constructor | assumption]. }
    destruct (String.eqb P Q) eqn:Heq; cbn [negb]; typed;
      [apply String.eqb_eq in Heq; subst Q | apply String.eqb_neq in Heq].
    + left. exists [], P, lines.
      split; [reflexivity|]. split; [constructor|]. split; [assumption|].
      reflexivity.
    + destruct (IH (MkWorld fs dn ck en dr fu lines)) as
        [(pre & P' & rest & Hl & Hpre & HP & Hrun) | [Hun Hrun]];
        [cbn [stdin length] in *; lia | |]; cbn [stdin] in *; rewrite Hrun.
      * left. exists (P :: Q :: pre), P', rest. subst lines.
        split; [reflexivity|]. split; [now constructor|]. split; [assumption|].
        reflexivity.
      * right. split; [|reflexivity].
        apply (unconfirmed_after [P; Q] lines); [|assumption].
        constructor; [assumption | exact Heq | constructor].
Qed.

(** X19. Where there is no vault file, [authenticate] creates the vault
    under a passphrase of six characters or more that was typed twice in a
    row, after rounds that were all rejected, and returns what
    [initialize_vault] returns; or the lines typed end before any
    passphrase is confirmed, and [authenticate] raises [EOFError] with no
    vault created and no file written. *)
Theorem authenticate_creates_under_confirmed_passphrase
    (v : PasswordVault) (w : World) :
  files w !! vault_path v = None ->
  (exists pre P rest,
      stdin w = pre ++ P :: P :: rest /\ rejected pre /\ (6 <= len P)%nat
      /\ authenticate (v, w) = initialize_vault P (v, set_stdin rest w))
  \/ (unconfirmed (stdin w)
      /\ authenticate (v, w) = (Raise EOFError, (v, set_stdin [] w))).
Proof.
  intros Hnone. unfold authenticate, vault_exists. typed. rewrite Hnone.
  typed.
  destruct (new_master_password_spec (S (length (stdin w))) v w)
    as [(pre & P & rest & Hl & Hpre & HP & Hrun) | [Hun Hrun]]; [lia | |];
    rewrite Hrun; typed.
  - left. exists pre, P, rest. split; [assumption|]. split; [assumption|].
    split; [assumption|].
    match goal with
    | |- context [initialize_vault P ?s] =>
        destruct (initialize_vault P s) as [[[] | e |] s']
    end; reflexivity.
  - right. split; [assumption | reflexivity].
Qed.

(** X20. Where there is a vault file, [authenticate] asks once: it is
    [unlock_vault] on the first line typed, of whatever length, and so
    never raises once a line was typed; with no line typed it raises
    [EOFError] and changes nothing. *)
Theorem authenticate_unlocks_with_first_line
    (v : PasswordVault) (w : World) (token : bytes) :
  files w !! vault_path v = Some token ->
  match stdin w with
  | P :: rest =>
      authenticate (v, w) = unlock_vault P (v, set_stdin rest w)
      /\ forall e, fst (authenticate (v, w)) <> Raise e
  | [] => authenticate (v, w) = (Raise EOFError, (v, w))
  end.
Proof.
  intros Hsome. unfold authenticate, vault_exists. typed. rewrite Hsome.
  typed.
  destruct (stdin w) as [|P rest] eqn:Hin; typed; [reflexivity|].
  match goal with
  | |- context [unlock_vault P (v, ?w')] =>
      pose proof (More.unlock_never_raises P v w') as Hnever;
      destruct (unlock_vault P (v, w')) as [[[] | e |] s']
  end; cbn [fst] in *; (split; [reflexivity|]); intros e'; try discriminate.
  now destruct (Hnever e).
Qed.

End Methods.
End Wallet.

(** ** The further properties at the scenario *)

Module MoreScenario.
Import Vault Props More Scenario.

#[local] Existing Instances Toy.runtime Toy.laws Toy.authentic.

Definition key : Fernet :=
  MkFernet (_derive_key "correct-horse" (salt_of vault0 world0)).

Lemma added_unlocked : fernet (fst added) = Some key.
Proof. reflexivity. Qed.

Lemma added_has_site : Forall has_site (entries (fst added)).
Proof. constructor; [exact github_has_site | constructor]. Qed.

Lemma added_searchable : Forall searchable (entries (fst added)).
Proof.
  constructor; [|constructor].
  split; [exact github_has_site | now exists (VStr "alice")].
Qed.

(** X1 at the scenario: GitHub.com is added, GITHUB.COM is asked. *)
Lemma add_entry_then_entry_exists_witness :
  let s' := snd (add_entry "GitHub.com" "bob" "n3w" (fst added, snd added)) in
  entry_exists "GITHUB.COM" s' = (Ok true, s').
Proof.
  apply (add_entry_then_entry_exists (fst added) (snd added) key
           "GitHub.com" "GITHUB.COM" "bob" "n3w");
    [exact added_unlocked | exact added_has_site | reflexivity].
Defined.

(** X2 at the scenario: the password of GitHub.com is replaced. *)
Lemma add_entry_then_get_password_witness :
  let s' := snd (add_entry "GitHub.com" "bob" "n3w" (fst added, snd added)) in
  get_password "github.com" s' = (Ok (Some (VStr "n3w")), s').
Proof.
  apply (add_entry_then_get_password (fst added) (snd added) key
           "GitHub.com" "github.com" "bob" "n3w");
    [exact added_unlocked | exact added_has_site | reflexivity].
Defined.

(** X3 at the scenario: gitlab.com is added, github.com is asked. *)
Lemma add_entry_keeps_other_sites_witness :
  let s' := snd (add_entry "gitlab.com" "bob" "n3w" (fst added, snd added)) in
  entry_exists "github.com" s'
  = (fst (entry_exists "github.com" (fst added, snd added)), s')
  /\ get_password "github.com" s'
     = (fst (get_password "github.com" (fst added, snd added)), s').
Proof.
  apply (add_entry_keeps_other_sites (fst added) (snd added) key
           "gitlab.com" "github.com" "bob" "n3w");
    [exact added_unlocked | exact added_has_site | vm_compute; discriminate].
Defined.

Lemma added_unique : unique_sites (entries (fst added)).
Proof.
  intros i j ei ej site Hi Hj _ _.
  apply lookup_lt_Some in Hi, Hj. cbn in Hi, Hj. lia.
Qed.

(** X4 at the scenario: GitHub.com is added where github.com is. *)
Lemma add_entry_keeps_sites_unique_witness :
  let es' :=
    entries (fst (snd (add_entry "GitHub.com" "bob" "n3w" (fst added, snd added)))) in
  unique_sites es' /\ Forall has_site es'.
Proof.
  apply (add_entry_keeps_sites_unique (fst added) (snd added) key
           "GitHub.com" "bob" "n3w");
    [exact added_unlocked | exact added_has_site | exact added_unique].
Defined.

Lemma added_has_password : Forall has_password (entries (fst added)).
Proof. constructor; [now exists (VStr "p@ss1") | constructor]. Qed.

(** X5 at the scenario: the three lookups of GITHUB.COM. *)
Lemma lookups_agree_witness :
  (exists k e p,
      entries (fst added) !! k = Some e /\ same_site "GITHUB.COM" e
      /\ e !! "password"%string = Some p
      /\ entry_exists "GITHUB.COM" added = (Ok true, added)
      /\ _find_entry_index "GITHUB.COM" added = (Ok (Some k), added)
      /\ get_password "GITHUB.COM" added = (Ok (Some p), added))
  \/ (Forall (fun e => ~ same_site "GITHUB.COM" e) (entries (fst added))
      /\ entry_exists "GITHUB.COM" added = (Ok false, added)
      /\ _find_entry_index "GITHUB.COM" added = (Ok None, added)
      /\ get_password "GITHUB.COM" added = (Ok None, added)).
Proof.
  apply (lookups_agree added "GITHUB.COM");
    [exact added_has_site | exact added_has_password].
Defined.

(** A record set whose second entry has no site, as a vault file edited by
    hand and unlocked would give. *)
Definition damaged : PasswordVault := with_entries [github; ∅] (fst added).

(** X7 at the scenario: gitlab.com is looked up past the entry without a
    site. *)
Lemma entry_without_site_raises_witness :
  add_entry "gitlab.com" "bob" "n3w" (damaged, snd added)
  = (Raise KeyError, (damaged, snd added))
  /\ get_password "gitlab.com" (damaged, snd added)
     = (Raise KeyError, (damaged, snd added))
  /\ entry_exists "gitlab.com" (damaged, snd added)
     = (Raise KeyError, (damaged, snd added)).
Proof.
  apply (entry_without_site_raises damaged (snd added) key
           "gitlab.com" "bob" "n3w" [github] [] ∅);
    [reflexivity | reflexivity | | reflexivity].
  constructor; [|constructor]. split; [exact github_has_site|].
  intros (x & Hx & Hl). vm_compute in Hx. injection Hx as <-.
  vm_compute in Hl. discriminate.
Defined.

(** The vault file is there, the salt file is not. *)
Definition saltless : World :=
  set_files (<["data/vault.enc"%string := [x00]]> ∅) world0.

(** X8 at the scenario: the salt file is written anew. *)
Lemma unlock_vault_creates_missing_salt_witness :
  files (snd (snd (unlock_vault "correct-horse" (vault0, saltless))))
  = <[salt_path vault0 := map (entropy saltless) (seq (drawn saltless) 16)]>
      (files saltless).
Proof.
  apply (unlock_vault_creates_missing_salt "correct-horse" vault0 saltless [x00]);
    [reflexivity | reflexivity | apply world0_open | reflexivity].
Defined.

(** The vault file cannot be opened. *)
Definition readonly : World :=
  MkWorld ∅ {["data/vault.enc"%string]} 1700000000000000 (fun _ => x2a) 0 None [].

Lemma readonly_salt : salt_path vault0 ∉ denied readonly.
Proof.
  unfold readonly. cbn [denied]. intros H. apply elem_of_singleton in H.
  discriminate.
Qed.

Lemma readonly_vault : vault_path vault0 ∈ denied readonly.
Proof. unfold readonly. cbn [denied]. now apply elem_of_singleton. Qed.

(** X9 at the scenario: the vault is initialised where its file cannot be
    opened. *)
Lemma initialize_vault_true_without_save_witness :
  let f := MkFernet (_derive_key "correct-horse" (salt_of vault0 readonly)) in
  let w1 := with_salt vault0 readonly in
  initialize_vault "correct-horse" (vault0, readonly)
  = (Ok true, (MkVault (vault_path vault0) (salt_path vault0) [] (Some f),
               set_drawn (drawn w1 + 16) w1))
  /\ files (set_drawn (drawn w1 + 16) w1) !! vault_path vault0
     = files readonly !! vault_path vault0.
Proof.
  apply (initialize_vault_true_without_save "correct-horse" vault0 readonly);
    [exact readonly_salt | exact readonly_vault | reflexivity].
Defined.

(** X10 at the scenario: an entry is added where the vault file cannot be
    opened. *)
Lemma add_entry_unsaved_stays_in_memory_witness :
  exists idx,
    find_from 0 (entries (fst added)) "gitlab.com" = Ok idx
    /\ add_entry "gitlab.com" "bob" "n3w" (fst added, readonly)
       = (Ok false,
          (with_entries
             (place idx (new_entry "gitlab.com" "bob" "n3w"
                           (isoformat (clock readonly)))
                    (entries (fst added))) (fst added),
           set_drawn (drawn readonly + 16) readonly)).
Proof.
  apply (add_entry_unsaved_stays_in_memory (fst added) readonly key
           "gitlab.com" "bob" "n3w");
    [exact added_unlocked | exact added_has_site | exact readonly_vault].
Defined.

(** X11 at the scenario: the vault is initialised again, under another
    passphrase, over the vault with github.com. *)
Lemma initialize_vault_starts_empty_witness :
  let s1 := snd (initialize_vault "another" (fst added, snd added)) in
  let f := MkFernet (_derive_key "another" (salt_of (fst added) (snd added))) in
  fst (initialize_vault "another" (fst added, snd added)) = Ok true
  /\ get_entries s1 = (Ok [], s1)
  /\ vault_exists s1 = (Ok true, s1)
  /\ exists t iv,
       files (snd s1) !! vault_path (fst added)
       = Some (fernet_encrypt f t iv (str_encode (json_dumps []))).
Proof.
  apply (initialize_vault_starts_empty "another" (fst added) (snd added));
    [apply world0_open | apply world0_open | reflexivity].
Defined.

(** X12 at the scenario: the empty keyword. *)
Lemma search_entries_empty_keyword_witness :
  exists ms,
    search_entries "" added = (Ok ms, added)
    /\ length ms = length (entries (fst added))
    /\ forall i e, entries (fst added) !! i = Some e ->
                   exists m, ms !! i = Some m /\ search_hit i e m.
Proof.
  apply (search_entries_empty_keyword added);
    [reflexivity | exact added_searchable].
Defined.

(** X13 at the scenario: the matches of "hub". *)
Lemma search_matches_are_listings_witness :
  exists ms ds,
    search_entries "hub" added = (Ok ms, added)
    /\ get_entries added = (Ok ds, added)
    /\ Forall (fun m => exists i : nat,
                  m !! "index"%string = Some (VInt (Z.of_nat i))
                  /\ ds !! i = Some (delete "index"%string m)) ms.
Proof.
  apply (search_matches_are_listings added "hub"). exact added_searchable.
Defined.

(** What is typed where there is no vault: a passphrase too short, one
    confirmed with a slip, and one confirmed. *)
Definition first_run : World :=
  set_stdin ["horse"; "correct-horse"; "correct-hoarse"; "correct-horse";
             "correct-horse"; "1"]%string world0.

(** X19 at the scenario: the vault is created at the third round. *)
Lemma authenticate_creates_under_confirmed_passphrase_witness :
  (exists pre P rest,
      stdin first_run = pre ++ P :: P :: rest /\ Wallet.rejected pre
      /\ (6 <= Wallet.len P)%nat
      /\ Wallet.authenticate (vault0, first_run)
         = initialize_vault P (vault0, set_stdin rest first_run))
  \/ (Wallet.unconfirmed (stdin first_run)
      /\ Wallet.authenticate (vault0, first_run)
         = (Raise EOFError, (vault0, set_stdin [] first_run))).
Proof.
  apply (Wallet.authenticate_creates_under_confirmed_passphrase vault0 first_run).
  reflexivity.
Defined.

(** The passphrase is typed where the vault of the scenario is. *)
Definition next_run : World := set_stdin ["correct-horse"; "5"]%string (snd added).

Lemma next_run_vault :
  files next_run !! vault_path vault0
  = Some (token_of (fst added) (snd created) key).
Proof. reflexivity. Qed.

(** X20 at the scenario: the vault is unlocked with the line typed. *)
Lemma authenticate_unlocks_with_first_line_witness :
  Wallet.authenticate (vault0, next_run)
  = unlock_vault "correct-horse" (vault0, set_stdin ["5"%string] next_run)
  /\ forall e, fst (Wallet.authenticate (vault0, next_run)) <> Raise e.
Proof.
  exact (Wallet.authenticate_unlocks_with_first_line vault0 next_run _
           next_run_vault).
Defined.

(** The random numbers 0, 1, 2, ... *)
Definition counting : Generator.Rng := Generator.MkRng (fun k => k) 0.

(** X16 at the default arguments of [generate_password], with the ASCII
    classes. *)
Lemma generated_password_rating_witness :
  let password :=
    fst (Generator.generate_password 12 true true true counting) in
  Generator.score (CC := Generator.ascii_only) (Generator.code_points password)
  = 6%nat
  /\ (Generator.get_password_strength (CC := Generator.ascii_only)
        (Generator.code_points password) = "Strong"%string <->
      (12 <= 12 /\ (2 <= 3)%nat) \/ (8 <= 12 /\ 3%nat = 3%nat)).
Proof.
  exact (@GeneratorProps.generated_password_rating Generator.ascii_only
           GeneratorProps.ascii_only_laws 12 true true true counting).
Defined.

(** X17 at a password of nine characters with all four kinds. *)
Lemma strong_password_is_long_witness :
  let password := Generator.code_points "Passw0rd!" in
  (8 <= length password)%nat /\
  ((length password < 12)%nat ->
   existsb (Generator.islower (CharClasses := Generator.ascii_only)) password &&
   existsb (Generator.isupper (CharClasses := Generator.ascii_only)) password &&
   existsb (Generator.isdigit (CharClasses := Generator.ascii_only)) password &&
   existsb (Generator.char_in Generator.special_chars) password = true).
Proof.
  apply (@GeneratorProps.strong_password_is_long Generator.ascii_only
           (Generator.code_points "Passw0rd!")).
  reflexivity.
Defined.

End MoreScenario.
